(** * Address-library dumper: a shallow embedding of [src/main.cpp]

    The program maps a binary "address library", decodes its header and its
    delta-compressed record stream into (id, offset) pairs, sorts the pairs
    by id and logs one text line per pair.

    Integers of the C++ program are [Z] with the wrap-around written out;
    the input buffer is a [list byte]; the stream object, which the C++ code
    passes by reference and mutates, is threaded explicitly; exceptions and
    the one undefined operation of the decoder (an integer division whose
    divisor may be zero) are outcomes of their own. *)

From Stdlib Require Import String Ascii Strings.Byte.
From Stdlib Require Import ZArith List Lia Bool Permutation Sorted.
Import ListNotations.

Local Open Scope Z_scope.

(** ** Fixed-width integers *)

(** [std::uint64_t] arithmetic: every result is reduced modulo 2^64. *)
Definition u64 (x : Z) : Z := x mod 2 ^ 64.

(** Reinterpretation of a 32-bit pattern as [std::int32_t]. *)
Definition to_int32 (u : Z) : Z := if u <? 2 ^ 31 then u else u - 2 ^ 32.

(** Little-endian value of a run of bytes. *)
Fixpoint from_le (bs : list byte) : Z :=
  match bs with
  | [] => 0
  | b :: rest => Z.of_N (Byte.to_N b) + 256 * from_le rest
  end.

(** ** Errors and outcomes *)

(** The exceptions a run can meet.  The three [raise_error] sites of the
    program carry what their message is formatted from; [OutOfBounds] is the
    byte cursor's exception; [LengthError] and [BadAlloc] are the two
    exceptions of [std::vector]'s sizing constructor ([std::length_error]
    and [std::bad_alloc]). *)
Inductive error : Type :=
| InvalidFormat (format : Z)      (* main.cpp:68 *)
| UnhandledTag (line : nat)       (* main.cpp:123 and main.cpp:154 *)
| BadArguments (got : Z)          (* main.cpp:209 *)
| OutOfBounds
| LengthError
| BadAlloc.

(** The error kinds of section 7 of the specification, and the kind each
    exception of the program falls under ([None]: the specification names no
    kind for it).  No exception of the program is a [DivisionFault]. *)
Inductive error_kind : Type :=
| KInvalidFormat
| KOutOfBounds
| KUnhandledTag
| KDivisionFault.

Definition kind_of (e : error) : option error_kind :=
  match e with
  | InvalidFormat _ => Some KInvalidFormat
  | UnhandledTag _ => Some KUnhandledTag
  | OutOfBounds => Some KOutOfBounds
  | BadArguments _ => None
  | LengthError => None
  | BadAlloc => None
  end.

(** What evaluating a piece of the program gives: a value, a thrown
    exception, or undefined behaviour. *)
Inductive outcome (A : Type) : Type :=
| Ok (a : A)
| Raise (e : error)
| Undefined.

Arguments Ok {A} a.
Arguments Raise {A} e.
Arguments Undefined {A}.

(** ** The byte cursor *)

(** Modelled from the spec: [binary_io::span_istream] is a library type the
    program includes ([<binary_io/span_stream.hpp>]); its code is not part of
    the sources.  Section 4.1 of the specification gives its contract: an
    immutable byte slice and a read position; fixed-width little-endian
    reads that fail with [OutOfBounds] and leave the position alone when too
    few bytes remain; relative seeks that fail with [OutOfBounds] when they
    would leave [0, length]. *)
Record span_istream : Type := mk_span_istream {
  buffer : list byte;
  pos : nat
}.

Definition remaining (s : span_istream) : list byte := skipn (pos s) (buffer s).

(** Computations over the stream: the stream goes in, an outcome and the
    stream as the computation left it come out (the stream object outlives a
    thrown exception). *)
Definition M (A : Type) : Type := span_istream -> outcome A * span_istream.

Definition ret {A} (a : A) : M A := fun s => (Ok a, s).
Definition raise {A} (e : error) : M A := fun s => (Raise e, s).
Definition undefined {A} : M A := fun s => (Undefined, s).

Definition bind {A B} (m : M A) (k : A -> M B) : M B :=
  fun s =>
    match m s with
    | (Ok a, s') => k a s'
    | (Raise e, s') => (Raise e, s')
    | (Undefined, s') => (Undefined, s')
    end.

Declare Scope stream_scope.
Delimit Scope stream_scope with stream.
Notation "x <- m ;; k" := (bind m (fun x => k))
  (at level 61, m at next level, right associativity) : stream_scope.
Notation "m ;;; k" := (bind m (fun _ => k))
  (at level 61, right associativity) : stream_scope.
Local Open Scope stream_scope.

(** Modelled from the spec: the read primitive of the byte cursor (section
    4.1): all [n] bytes or none. *)
Definition read_bytes (n : nat) : M (list byte) :=
  fun s =>
    if (pos s + n <=? length (buffer s))%nat
    then (Ok (firstn n (remaining s)), mk_span_istream (buffer s) (pos s + n))
    else (Raise OutOfBounds, s).

(** Modelled from the spec: [seek_relative] of the byte cursor (section
    4.1): the new position must stay inside [0, length]. *)
Definition seek_relative (delta : Z) : M unit :=
  fun s =>
    let target := Z.of_nat (pos s) + delta in
    if (0 <=? target) && (target <=? Z.of_nat (length (buffer s)))
    then (Ok tt, mk_span_istream (buffer s) (Z.to_nat target))
    else (Raise OutOfBounds, s).

(** [a_in.read<T>()] for the unsigned widths, and [a_in.read(x)] on an
    [std::int32_t]. *)
Definition read_uint8 : M Z := bs <- read_bytes 1 ;; ret (from_le bs).
Definition read_uint16 : M Z := bs <- read_bytes 2 ;; ret (from_le bs).
Definition read_uint32 : M Z := bs <- read_bytes 4 ;; ret (from_le bs).
Definition read_uint64 : M Z := bs <- read_bytes 8 ;; ret (from_le bs).
Definition read_int32 : M Z := bs <- read_bytes 4 ;; ret (to_int32 (from_le bs)).

(** A read of several [std::int32_t] at once takes all their bytes in one
    step (section 4.1: multi-value reads are atomic). *)
Fixpoint split_int32 (k : nat) (bs : list byte) : list Z :=
  match k with
  | O => []
  | S k' => to_int32 (from_le (firstn 4 bs)) :: split_int32 k' (skipn 4 bs)
  end.

Definition read_int32s (k : nat) : M (list Z) :=
  bs <- read_bytes (4 * k) ;; ret (split_int32 k bs).

(** ** The header ([header_t], [read_header]) *)

Record header_t : Type := mk_header {
  format : Z;
  version : list Z;
  pointer_size : Z;
  address_count : Z
}.

Definition read_header : M header_t :=
  format <- read_int32 ;;
  match format with
  | 1 | 2 => ret tt
  | _ => raise (InvalidFormat format)
  end ;;;
  version <- read_int32s 4 ;;
  nameLen <- read_int32 ;;
  seek_relative nameLen ;;;
  fields <- read_int32s 2 ;;
  ret (mk_header format version (nth 0 fields 0) (nth 1 fields 0)).

(** ** The record stream ([read_file]) *)

Definition mapping : Type := (Z * Z)%type.

(** [static_cast<std::uint8_t>]. *)
Definition u8 (x : Z) : Z := x mod 2 ^ 8.

(** The usual arithmetic conversion of an [std::int32_t] operand that meets
    an [std::uint64_t] one. *)
Definition int32_to_u64 (i : Z) : Z := i mod 2 ^ 64.

(** [a / b] on [std::uint64_t]: undefined for a zero divisor. *)
Definition udiv (a b : Z) : M Z :=
  if b =? 0 then undefined else ret (a / b).

(** What the sources do not fix about [std::vector]: the largest size its
    sizing constructor accepts ([max_size()]), and whether the heap has room
    for a given number of elements.  A vector of no element takes no
    storage: the constructor asks the heap only for a positive size. *)
Class Allocator : Type := {
  max_size : Z;
  can_allocate : Z -> bool;
  max_size_nonneg : 0 <= max_size;
  allocate_nothing : can_allocate 0 = true
}.

(** The sizing constructor of [std::vector], called on the
    [std::int32_t address_count], main.cpp:85: a negative count converts to
    a size above [max_size()]; a size above [max_size()] throws
    [std::length_error]; for a size it accepts, the constructor takes the
    storage and throws [std::bad_alloc] when the heap has no room. *)
Definition vector_of_size {heap : Allocator} (count : Z) : M nat :=
  if (count <? 0) || (max_size <? count) then raise LengthError
  else if can_allocate count then ret (Z.to_nat count)
  else raise BadAlloc.

(** [switch (lo)], main.cpp:97-124. *)
Definition read_id (lo prevID : Z) : M Z :=
  match lo with
  | 0 => read_uint64
  | 1 => ret (u64 (prevID + 1))
  | 2 => x <- read_uint8 ;; ret (u64 (prevID + x))
  | 3 => x <- read_uint8 ;; ret (u64 (prevID - x))
  | 4 => x <- read_uint16 ;; ret (u64 (prevID + x))
  | 5 => x <- read_uint16 ;; ret (u64 (prevID - x))
  | 6 => read_uint16
  | 7 => read_uint32
  | _ => raise (UnhandledTag 123)
  end.

(** [switch (hi & 7)], main.cpp:128-155. *)
Definition read_offset_mode (mode tmp : Z) : M Z :=
  match mode with
  | 0 => read_uint64
  | 1 => ret (u64 (tmp + 1))
  | 2 => x <- read_uint8 ;; ret (u64 (tmp + x))
  | 3 => x <- read_uint8 ;; ret (u64 (tmp - x))
  | 4 => x <- read_uint16 ;; ret (u64 (tmp + x))
  | 5 => x <- read_uint16 ;; ret (u64 (tmp - x))
  | 6 => read_uint16
  | 7 => read_uint32
  | _ => raise (UnhandledTag 154)
  end.

(** main.cpp:126-159: the base [tmp], the sub-mode, the scaling. *)
Definition read_offset (hi pointer_size prevOffset : Z) : M Z :=
  tmp <- (if negb (Z.land hi 8 =? 0)
          then udiv prevOffset (int32_to_u64 pointer_size)
          else ret prevOffset) ;;
  offset <- read_offset_mode (Z.land hi 7) tmp ;;
  if negb (Z.land hi 8 =? 0)
  then ret (u64 (offset * int32_to_u64 pointer_size))
  else ret offset.

(** One turn of the loop of [read_file], main.cpp:93-161. *)
Definition read_mapping (pointer_size prevID prevOffset : Z) : M mapping :=
  type <- read_uint8 ;;
  let lo := u8 (Z.land type 15) in
  let hi := u8 (Z.shiftr type 4) in
  id <- read_id lo prevID ;;
  offset <- read_offset hi pointer_size prevOffset ;;
  ret (id, offset).

(** The loop over the [n] slots of the vector, with [prevID] and
    [prevOffset] carried from one turn to the next. *)
Fixpoint read_mappings (n : nat) (pointer_size prevID prevOffset : Z)
  : M (list mapping) :=
  match n with
  | O => ret []
  | S n' =>
      m <- read_mapping pointer_size prevID prevOffset ;;
      rest <- read_mappings n' pointer_size (fst m) (snd m) ;;
      ret (m :: rest)
  end.

Definition read_file {heap : Allocator} : M (list mapping) :=
  header <- read_header ;;
  n <- vector_of_size (address_count header) ;;
  read_mappings n (pointer_size header) 0 0.

(** ** Text formatting ([fmt]) *)

(** The digit characters of [fmt]'s integer presentations [d] and [X]. *)
Definition digit_char (d : Z) : ascii :=
  ascii_of_nat (Z.to_nat (if d <? 10 then 48 + d else 55 + d)).

(** Digits of [n] in [base], most significant first, pushed in front of
    [acc].  Every turn takes off at least one bit of [n], so the bit length
    of [n] is fuel enough. *)
Fixpoint digits_from (base : Z) (fuel : nat) (n : Z) (acc : string) : string :=
  match fuel with
  | O => acc
  | S fuel' =>
      let acc' := String (digit_char (n mod base)) acc in
      if n / base =? 0 then acc' else digits_from base fuel' (n / base) acc'
  end.

Definition render (base n : Z) : string :=
  digits_from base (S (Z.to_nat (Z.log2 n))) n EmptyString.

(** [fmt::to_string] on an unsigned integer, and on a signed one. *)
Definition to_string (n : Z) : string := render 10 n.

Definition to_string_int (i : Z) : string :=
  if i <? 0 then String "-" (to_string (- i)) else to_string i.

Fixpoint replicate (k : nat) (c : ascii) : string :=
  match k with
  | O => EmptyString
  | S k' => String c (replicate k' c)
  end.

(** Padding on the left up to [width]; a longer text is left as it is. *)
Definition pad_left (fill : ascii) (width : nat) (s : string) : string :=
  (replicate (width - String.length s) fill ++ s)%string.

Definition tab : ascii := "009"%char.
Definition newline : ascii := "010"%char.

(** [fmt::format("{1: >{0}}\t{2:07X}", len, id, address)], main.cpp:184. *)
Definition format_line (len : nat) (id address : Z) : string :=
  (pad_left " " len (to_string id)
   ++ String tab (pad_left "0" 7 (render 16 address)))%string.

(** ** Sorting ([std::sort]) *)

(** What [std::sort] asks of its comparison. *)
Record strict_weak_order {A} (comp : A -> A -> bool) : Prop := {
  swo_irrefl : forall a, comp a a = false;
  swo_trans : forall a b c, comp a b = true -> comp b c = true -> comp a c = true;
  swo_equiv_trans : forall a b c,
      comp a b = false -> comp b a = false ->
      comp b c = false -> comp c b = false ->
      comp a c = false /\ comp c a = false
}.

(** [std::sort] is known by its contract only: it permutes the range so
    that no element compares less than an element before it; what happens
    to equivalent elements is left to the implementation. *)
Class StdSort : Type := {
  std_sort : forall {A : Type}, (A -> A -> bool) -> list A -> list A;
  std_sort_perm : forall A (comp : A -> A -> bool) l,
      Permutation l (std_sort comp l);
  std_sort_sorted : forall A (comp : A -> A -> bool) l,
      strict_weak_order comp ->
      StronglySorted (fun a b => comp b a = false) (std_sort comp l)
}.

(** The comparison of main.cpp:178-180. *)
Definition less_id (a_lhs a_rhs : mapping) : bool := fst a_lhs <? fst a_rhs.

(** ** Emission ([dump_mappings]) *)

(** The logger, set up by [do_main] with the pattern ["%v"] and the level
    [trace]: each [info] call adds its message as one line. *)
Definition logger : Type := list string.

Definition info (a_out : logger) (msg : string) : logger := a_out ++ [msg].

Section Emit.

Context {sorter : StdSort} {heap : Allocator}.

(** main.cpp:175-182: the sort, then the width taken from the last id. *)
Definition sort_mappings (mappings : list mapping) : list mapping :=
  std_sort less_id mappings.

Definition id_width (mappings : list mapping) : nat :=
  match mappings with
  | [] => O
  | _ :: _ => String.length (to_string (fst (last mappings (0, 0))))
  end.

(** main.cpp:183-185. *)
Definition log_mappings (len : nat) (mappings : list mapping) (a_out : logger)
  : logger :=
  fold_left (fun out m => info out (format_line len (fst m) (snd m)))
            mappings a_out.

Definition dump_mappings (a_in : span_istream) (a_out : logger)
  : outcome unit * span_istream * logger :=
  match read_file a_in with
  | (Ok mappings, a_in') =>
      let mappings := sort_mappings mappings in
      let len := id_width mappings in
      (Ok tt, a_in', log_mappings len mappings a_out)
  | (Raise e, a_in') => (Raise e, a_in', a_out)
  | (Undefined, a_in') => (Undefined, a_in', a_out)
  end.

(** ** The process ([do_main], [wmain]) *)

(** What the build and the libraries fix and the sources do not show: the
    file name [std::source_location] reports, and the [what()] texts of the
    library exceptions. *)
Record environment : Type := {
  file_name : string;
  what_out_of_bounds : string;
  what_length_error : string;
  what_bad_alloc : string
}.

Variable env : environment.

(** The message [raise_error] builds, main.cpp:36-40. *)
Definition raise_error_message (line : Z) (msg : string) : string :=
  (file_name env ++ "(" ++ to_string line ++ "): " ++ msg)%string.

(** [a_err.what()]. *)
Definition what (e : error) : string :=
  match e with
  | InvalidFormat format =>
      raise_error_message 68
        ("invalid header version (" ++ to_string_int format ++ ")")%string
  | UnhandledTag line => raise_error_message (Z.of_nat line) "unhandled type"
  | BadArguments got =>
      raise_error_message 209
        ("expected only 1 argument (the file path): got " ++ to_string_int got)%string
  | OutOfBounds => what_out_of_bounds env
  | LengthError => what_length_error env
  | BadAlloc => what_bad_alloc env
  end.

(** [do_main] on the bytes the file maps to: a stream at position 0 and a
    logger with nothing written yet. *)
Definition do_main (lib : list byte) : outcome unit * logger :=
  let '(r, _, out) := dump_mappings (mk_span_istream lib 0) [] in (r, out).

Definition EXIT_FAILURE : Z := 1.

(** What a finished process leaves: the text on standard output, the lines
    of the output file ([None] when no logger was made) and the status. *)
Record process : Type := mk_process {
  stdout : string;
  out_file : option logger;
  exit_status : Z
}.

(** [wmain], main.cpp:203-216; [lib] is what the file named by the
    argument maps to.  [None] is a run that met undefined behaviour. *)
Definition wmain (a_argc : Z) (lib : list byte) : option process :=
  if a_argc =? 2 then
    match do_main lib with
    | (Ok _, out) => Some (mk_process EmptyString (Some out) EXIT_FAILURE)
    | (Raise a_err, out) =>
        Some (mk_process (what a_err ++ String newline EmptyString)%string
                         (Some out) EXIT_FAILURE)
    | (Undefined, _) => None
    end
  else
    Some (mk_process
            (what (BadArguments (a_argc - 1)) ++ String newline EmptyString)%string
            None EXIT_FAILURE).

End Emit.

(** ** Two sorts that meet the contract of [std::sort] *)

(** Insertion from the right end; [before_equal] says on which side of the
    elements equivalent to it a new element lands. *)
Fixpoint insert_by {A} (before_equal : bool) (comp : A -> A -> bool)
         (x : A) (l : list A) : list A :=
  match l with
  | [] => [x]
  | y :: rest =>
      if comp x y then x :: l
      else if before_equal && negb (comp y x) then x :: l
      else y :: insert_by before_equal comp x rest
  end.

Definition insertion_sort {A} (before_equal : bool) (comp : A -> A -> bool)
           (l : list A) : list A :=
  fold_right (insert_by before_equal comp) [] l.

(** ** Sample inputs *)

Definition byte_of_Z (z : Z) : byte :=
  match Byte.of_N (Z.to_N (z mod 256)) with
  | Some b => b
  | None => x00
  end.

(** The [width] bytes of [v], least significant first. *)
Fixpoint to_le (width : nat) (v : Z) : list byte :=
  match width with
  | O => []
  | S w => byte_of_Z v :: to_le w (v / 256)
  end.

(** A header of format 1, version 1.5.97.0, with a three-byte name. *)
Definition sample_header (pointer_size address_count : Z) : list byte :=
  to_le 4 1 ++ to_le 4 1 ++ to_le 4 5 ++ to_le 4 97 ++ to_le 4 0
  ++ to_le 4 3 ++ map byte_of_Z [97; 98; 99]
  ++ to_le 4 pointer_size ++ to_le 4 address_count.

(** Four records: (0x06 0x00: id u16 = 300, offset u64 = 4096),
    (0x11: id + 1, offset + 1), (0x93: id - 5, (offset / 8 + 1) * 8),
    (0x72: id + 4, offset u32 = 0x12345678). *)
Definition sample_records : list byte :=
  map byte_of_Z [6; 44; 1] ++ to_le 8 4096
  ++ map byte_of_Z [17]
  ++ map byte_of_Z [147; 5]
  ++ map byte_of_Z [114; 4] ++ to_le 4 305419896.

Definition sample_file : list byte := sample_header 8 4 ++ sample_records.

(** The same header with format 99. *)
Definition bad_format_file : list byte :=
  to_le 4 99 ++ skipn 4 (sample_header 8 4) ++ sample_records.

(** A zero [pointer_size] and one record 0x91: id + 1, scaled offset + 1. *)
Definition zero_pointer_file : list byte :=
  sample_header 0 1 ++ map byte_of_Z [145].

(** Two records announced; the first is 0x11, the second is 0x22 (id + u8,
    offset + u8) with one byte behind it instead of two. *)
Definition truncated_file : list byte :=
  sample_header 8 2 ++ map byte_of_Z [17; 34; 5].

(** One record announced: the tag 0x08 (unhandled id nibble, 64-bit offset)
    and nothing behind it. *)
Definition truncated_unhandled_file : list byte :=
  sample_header 8 1 ++ map byte_of_Z [8].

(** A zero [pointer_size] and one record 0xA1 (id + 1, scaled offset + u8)
    with nothing behind the tag. *)
Definition truncated_zero_pointer_file : list byte :=
  sample_header 0 1 ++ map byte_of_Z [161].

(** A zero [pointer_size] and one record 0x80 (64-bit id, scaled 64-bit
    offset) with nothing behind the tag. *)
Definition truncated_scaled_file : list byte :=
  sample_header 0 1 ++ map byte_of_Z [128].

(** No records announced. *)
Definition empty_file : list byte := sample_header 8 0.

Definition open_file (lib : list byte) : span_istream := mk_span_istream lib 0.

(** A 64-bit build ([max_size()] of a vector of 16-byte pairs) with room
    for 2^30 pairs, 16 GiB. *)
Definition sample_heap : Allocator := {|
  max_size := 2 ^ 60 - 1;
  can_allocate := fun count => count <=? 2 ^ 30;
  max_size_nonneg := Z.lt_le_incl 0 (2 ^ 60 - 1) eq_refl;
  allocate_nothing := eq_refl
|}.

(** A header that announces 2^31 - 1 records, and nothing behind it. *)
Definition huge_count_file : list byte := sample_header 8 2147483647.

(** ** The mode tables of the specification *)

(** Section 4.3, steps 2 and 3: the eight sub-codes and what each does with
    the previous value (the base) and the field it reads. *)
Inductive mode : Type :=
| Absolute (width : nat)
| Successor
| Forward (width : nat)
| Backward (width : nat)
| Unhandled.

Definition spec_mode (code : Z) : mode :=
  match code with
  | 0 => Absolute 8
  | 1 => Successor
  | 2 => Forward 1
  | 3 => Backward 1
  | 4 => Forward 2
  | 5 => Backward 2
  | 6 => Absolute 2
  | 7 => Absolute 4
  | _ => Unhandled
  end.

(** Bytes of the field a mode reads. *)
Definition spec_width (m : mode) : nat :=
  match m with
  | Absolute w | Forward w | Backward w => w
  | Successor | Unhandled => O
  end.

(** The value a mode gives, before reduction to 64 bits. *)
Definition spec_value (m : mode) (base field : Z) : Z :=
  match m with
  | Absolute _ => field
  | Successor => base + 1
  | Forward _ => base + field
  | Backward _ => base - field
  | Unhandled => 0
  end.

(** What a mode does on a stream, step by step as the specification tells
    it: nothing to read for [Successor], failure for [Unhandled], else the
    field is taken if its bytes are there. *)
Definition spec_decode (unhandled : error) (m : mode) (base : Z)
           (s : span_istream) : outcome Z * span_istream :=
  match m with
  | Unhandled => (Raise unhandled, s)
  | Successor => (Ok (u64 (spec_value m base 0)), s)
  | _ =>
      if (pos s + spec_width m <=? length (buffer s))%nat
      then (Ok (u64 (spec_value m base
                       (from_le (firstn (spec_width m) (remaining s))))),
            mk_span_istream (buffer s) (pos s + spec_width m))
      else (Raise OutOfBounds, s)
  end.

(** ** Vocabulary of the statements *)

(** The byte under the cursor, and the stream [n] bytes further. *)
Definition byte_at (s : span_istream) : Z := from_le (firstn 1 (remaining s)).

Definition advance (n : nat) (s : span_istream) : span_istream :=
  mk_span_istream (buffer s) (pos s + n).

Definition raises_only {A} (P : error -> Prop) (m : M A) : Prop :=
  forall s e s', m s = (Raise e, s') -> P e.

(** The exceptions of the header decoder. *)
Definition header_error (e : error) : Prop :=
  e = OutOfBounds \/ exists format, e = InvalidFormat format.

(** The values carried into the turn after the mappings [ms]. *)
Definition carried (ms : list mapping) (prevID prevOffset : Z) : mapping :=
  last ms (prevID, prevOffset).

(** The stream stops inside the record under the cursor: no tag byte is
    left, or fewer bytes follow the tag than the two fields it selects take
    (an id nibble of 8 to 15 selects no id field). *)
Definition fields_short (s : span_istream) : bool :=
  (length (buffer s) <=? pos s)%nat
  || (length (buffer s)
      <? pos s + 1 + spec_width (spec_mode (Z.land (byte_at s) 15))
         + spec_width (spec_mode (Z.land (Z.shiftr (byte_at s) 4) 7)))%nat.

(** The tag byte is there and its id nibble is 8 to 15: the first switch
    throws before a field is read. *)
Definition unhandled_first (s : span_istream) : bool :=
  (pos s <? length (buffer s))%nat && (7 <? Z.land (byte_at s) 15).

(** The tag byte and the whole id field are there, the id nibble is
    handled, the tag asks for scaling and the pointer size is zero: the
    division runs before the offset field is read. *)
Definition division_first (pointer_size : Z) (s : span_istream) : bool :=
  (pos s + 1 + spec_width (spec_mode (Z.land (byte_at s) 15))
   <=? length (buffer s))%nat
  && (Z.land (byte_at s) 15 <=? 7)
  && negb (Z.land (Z.shiftr (byte_at s) 4) 8 =? 0)
  && (int32_to_u64 pointer_size =? 0).

(** Reading a rendered number back: the value of a digit character, and of
    a text of digits. *)
Definition digit_val (c : ascii) : Z :=
  let n := Z.of_nat (nat_of_ascii c) in
  if n <? 58 then n - 48 else n - 55.

Fixpoint value_from (base v : Z) (s : string) : Z :=
  match s with
  | EmptyString => v
  | String c rest => value_from base (v * base + digit_val c) rest
  end.

Definition value (base : Z) (s : string) : Z := value_from base 0 s.

(** The characters [0]-[9] and [A]-[Z] that stand for a digit of [base]. *)
Definition is_digit (base : Z) (c : ascii) : Prop :=
  exists d, 0 <= d < base /\ c = digit_char d.

Fixpoint all_chars (P : ascii -> Prop) (s : string) : Prop :=
  match s with
  | EmptyString => True
  | String c rest => P c /\ all_chars P rest
  end.

(** Ascending order of ids, as a relation on neighbours and non-neighbours
    alike. *)
Definition ascending (l : list mapping) : Prop :=
  StronglySorted (fun a b => fst a <= fst b) l.

(** The largest id of a sequence (0 for none). *)
Definition max_id (l : list mapping) : Z :=
  fold_right (fun m acc => Z.max (fst m) acc) 0 l.

Definition in_range (m : mapping) : Prop :=
  0 <= fst m < 2 ^ 64 /\ 0 <= snd m < 2 ^ 64.



(** The exceptions thrown by [raise_error], with the line of the call. *)
Definition raise_error_line (e : error) : option Z :=
  match e with
  | InvalidFormat _ => Some 68
  | UnhandledTag line => Some (Z.of_nat line)
  | BadArguments _ => Some 209
  | OutOfBounds | LengthError | BadAlloc => None
  end.

Definition sample_env : environment := {|
  file_name := "src/main.cpp";
  what_out_of_bounds := "input buffer has been exhausted";
  what_length_error := "vector too long";
  what_bad_alloc := "bad allocation"
|}.

(** A message that starts with the file name and a line, as [raise_error]
    builds it. *)
Definition located (env : environment) (msg : string) : Prop :=
  exists (line : Z) (text : string),
    msg = (file_name env ++ "(" ++ to_string line ++ "): " ++ text)%string.

(** The vector is there: the count is none the constructor refuses and the
    heap has room for it. *)
Definition allocated {heap : Allocator} (count : Z) : Prop :=
  0 <= count <= max_size /\ can_allocate count = true.

(** ** Encoded files *)

(** The values an [std::int32_t] holds. *)
Definition int32 (v : Z) : Prop := - 2 ^ 31 <= v < 2 ^ 31.

(** A header [read_header] accepts, and the bytes it is stored in: the
    format, the four version numbers, the length of the name and the name,
    the pointer size and the number of records. *)
Definition valid_header (h : header_t) : Prop :=
  (format h = 1 \/ format h = 2)
  /\ length (version h) = 4%nat
  /\ Forall int32 (version h)
  /\ int32 (pointer_size h)
  /\ int32 (address_count h).

Definition header_bytes (h : header_t) (name : list byte) : list byte :=
  to_le 4 (format h)
  ++ concat (map (to_le 4) (version h))
  ++ to_le 4 (Z.of_nat (length name))
  ++ name
  ++ to_le 4 (pointer_size h)
  ++ to_le 4 (address_count h).

(** A record in the two absolute 64-bit modes: the tag 0x00, the id, the
    offset. *)
Definition absolute_record (m : mapping) : list byte :=
  byte_of_Z 0 :: to_le 8 (fst m) ++ to_le 8 (snd m).

Definition absolute_file (h : header_t) (name : list byte)
           (ms : list mapping) : list byte :=
  header_bytes h name ++ concat (map absolute_record ms).

(** ** Streams up to what lies behind the cursor *)

Definition in_bounds (s : span_istream) : Prop :=
  (pos s <= length (buffer s))%nat.

(** Two streams with the same bytes left to read. *)
Definition same_rest (s s' : span_istream) : Prop :=
  remaining s = remaining s' /\ in_bounds s /\ in_bounds s'.

(** A computation that looks at nothing but the bytes left to read. *)
Definition forward_only {A} (m : M A) : Prop :=
  forall s s',
    same_rest s s' ->
    fst (m s) = fst (m s') /\ same_rest (snd (m s)) (snd (m s')).

(** The modes that move away from the previous value, and by how much (in
    units of the field) they move. *)
Definition relative (m : mode) : Prop :=
  match m with
  | Successor | Forward _ | Backward _ => True
  | Absolute _ | Unhandled => False
  end.

Definition delta (m : mode) (field : Z) : Z := spec_value m 0 field.

(** Ids that are met once. *)
Definition distinct_ids (l : list mapping) : Prop := NoDup (map fst l).

(** * Proofs *)

(** ** Integers and bytes *)

Lemma byte_range (b : byte) : 0 <= Z.of_N (Byte.to_N b) < 256.
Proof.
  pose proof (Byte.to_N_bounded b). lia.
Qed.

Lemma from_le_range (bs : list byte) :
  0 <= from_le bs < 256 ^ Z.of_nat (length bs).
Proof.
  induction bs as [| b rest IH].
  - cbn. lia.
  - cbn [from_le length]. rewrite Nat2Z.inj_succ, Z.pow_succ_r by lia.
    pose proof (byte_range b). lia.
Qed.

Lemma from_le_firstn_range (n : nat) (bs : list byte) :
  0 <= from_le (firstn n bs) < 256 ^ Z.of_nat n.
Proof.
  pose proof (from_le_range (firstn n bs)) as H.
  pose proof (firstn_le_length n bs) as Hl.
  split; [lia |].
  apply Z.lt_le_trans with (256 ^ Z.of_nat (length (firstn n bs))); [lia |].
  apply Z.pow_le_mono_r; lia.
Qed.

Lemma u64_small (x : Z) : 0 <= x < 2 ^ 64 -> u64 x = x.
Proof. intros H. unfold u64. apply Z.mod_small. exact H. Qed.

Lemma u64_range (x : Z) : 0 <= u64 x < 2 ^ 64.
Proof. unfold u64. apply Z.mod_pos_bound. lia. Qed.

Lemma u64_from_le_firstn (n : nat) (bs : list byte) :
  (n <= 8)%nat -> u64 (from_le (firstn n bs)) = from_le (firstn n bs).
Proof.
  intros Hn. apply u64_small.
  pose proof (from_le_firstn_range n bs) as H.
  split; [lia |].
  apply Z.lt_le_trans with (256 ^ Z.of_nat n); [lia |].
  change (2 ^ 64) with (256 ^ 8). apply Z.pow_le_mono_r; lia.
Qed.

(** ** The cursor *)

Lemma read_bytes_enough (n : nat) (s : span_istream) :
  (pos s + n <= length (buffer s))%nat ->
  read_bytes n s
  = (Ok (firstn n (remaining s)), mk_span_istream (buffer s) (pos s + n)).
Proof.
  intros H. unfold read_bytes.
  destruct (Nat.leb_spec (pos s + n) (length (buffer s))); [reflexivity | lia].
Qed.

Lemma read_bytes_short (n : nat) (s : span_istream) :
  (length (buffer s) < pos s + n)%nat ->
  read_bytes n s = (Raise OutOfBounds, s).
Proof.
  intros H. unfold read_bytes.
  destruct (Nat.leb_spec (pos s + n) (length (buffer s))); [lia | reflexivity].
Qed.

(** Splits a goal about a small integer code into its cases 0 to 7 and the
    rest. *)
Ltac code_cases c :=
  destruct c as [| c | c];
  [
  | destruct c as [[[c | c |] | [c | c |] |] | [[c | c |] | [c | c |] |] |]
  | ].

(** Unfolds the typed reads down to [read_bytes] and decides the bounds
    test. *)
Ltac run_reads :=
  unfold read_uint8, read_uint16, read_uint32, read_uint64, read_int32,
    bind, ret, raise, read_bytes;
  cbn [spec_width spec_value];
  repeat match goal with
         | |- context [(?a <=? ?b)%nat] => destruct (a <=? b)%nat
         end.

(** The two switches of the decoder follow the mode table. *)
Lemma read_id_spec (lo prevID : Z) (s : span_istream) :
  read_id lo prevID s = spec_decode (UnhandledTag 123) (spec_mode lo) prevID s.
Proof.
  unfold read_id, spec_decode.
  code_cases lo; cbn [spec_mode]; try reflexivity;
    run_reads; try reflexivity;
    rewrite u64_from_le_firstn by lia; reflexivity.
Qed.

Lemma read_offset_mode_spec (code tmp : Z) (s : span_istream) :
  read_offset_mode code tmp s
  = spec_decode (UnhandledTag 154) (spec_mode code) tmp s.
Proof.
  unfold read_offset_mode, spec_decode.
  code_cases code; cbn [spec_mode]; try reflexivity;
    run_reads; try reflexivity;
    rewrite u64_from_le_firstn by lia; reflexivity.
Qed.

Lemma spec_mode_unhandled (code : Z) :
  spec_mode code = Unhandled <-> ~ (0 <= code <= 7).
Proof.
  split.
  - intros H Hr.
    assert (code = 0 \/ code = 1 \/ code = 2 \/ code = 3
            \/ code = 4 \/ code = 5 \/ code = 6 \/ code = 7) as Hc by lia.
    repeat (destruct Hc as [Hc | Hc]; [subst code; discriminate H |]).
    subst code. discriminate H.
  - intros H. code_cases code; try reflexivity; exfalso; lia.
Qed.

(** ** The tag byte *)

Lemma byte_at_range (s : span_istream) : 0 <= byte_at s < 256.
Proof. exact (from_le_firstn_range 1 (remaining s)). Qed.

Lemma land_15 (t : Z) : Z.land t 15 = t mod 16.
Proof. change 15 with (Z.ones 4). rewrite Z.land_ones by lia. reflexivity. Qed.

Lemma land_7 (h : Z) : Z.land h 7 = h mod 8.
Proof. change 7 with (Z.ones 3). rewrite Z.land_ones by lia. reflexivity. Qed.

Lemma shiftr_4 (t : Z) : Z.shiftr t 4 = t / 16.
Proof. rewrite Z.shiftr_div_pow2 by lia. reflexivity. Qed.

Lemma lo_nibble_range (t : Z) : 0 <= Z.land t 15 <= 15.
Proof. rewrite land_15. pose proof (Z.mod_pos_bound t 16). lia. Qed.

Lemma sub_mode_range (h : Z) : 0 <= Z.land h 7 <= 7.
Proof. rewrite land_7. pose proof (Z.mod_pos_bound h 8). lia. Qed.

Lemma hi_nibble_range (t : Z) : 0 <= t < 256 -> 0 <= Z.shiftr t 4 <= 15.
Proof.
  intros H. rewrite shiftr_4.
  pose proof (Z.div_le_mono t 255 16). pose proof (Z.div_pos t 16).
  change (255 / 16) with 15 in *. lia.
Qed.

Lemma u8_small (x : Z) : 0 <= x < 256 -> u8 x = x.
Proof. intros H. unfold u8. apply Z.mod_small. exact H. Qed.

(** One turn of the loop, with the tag byte taken off the stream: the two
    casts to [std::uint8_t] change nothing. *)
Lemma read_mapping_tag (pointer_size prevID prevOffset : Z) (s : span_istream) :
  (pos s < length (buffer s))%nat ->
  read_mapping pointer_size prevID prevOffset s
  = (id <- read_id (Z.land (byte_at s) 15) prevID ;;
     offset <- read_offset (Z.shiftr (byte_at s) 4) pointer_size prevOffset ;;
     ret (id, offset)) (advance 1 s).
Proof.
  intros Hlen. unfold read_mapping.
  unfold bind at 1. unfold read_uint8. unfold bind at 1.
  rewrite read_bytes_enough by lia. unfold ret at 1. fold (byte_at s).
  pose proof (byte_at_range s) as Ht.
  pose proof (lo_nibble_range (byte_at s)).
  pose proof (hi_nibble_range (byte_at s) Ht).
  rewrite !u8_small by lia. reflexivity.
Qed.

Lemma read_mapping_no_tag (pointer_size prevID prevOffset : Z) (s : span_istream) :
  (length (buffer s) <= pos s)%nat ->
  read_mapping pointer_size prevID prevOffset s = (Raise OutOfBounds, s).
Proof.
  intros Hlen. unfold read_mapping.
  unfold bind at 1. unfold read_uint8. unfold bind at 1.
  rewrite read_bytes_short by lia. reflexivity.
Qed.

(** ** Sequencing *)

Lemma bind_ok {A B} (m : M A) (k : A -> M B) s a s' :
  m s = (Ok a, s') -> bind m k s = k a s'.
Proof. intros H. unfold bind. rewrite H. reflexivity. Qed.

Lemma bind_raise {A B} (m : M A) (k : A -> M B) s e s' :
  m s = (Raise e, s') -> bind m k s = (Raise e, s').
Proof. intros H. unfold bind. rewrite H. reflexivity. Qed.

Lemma bind_undefined {A B} (m : M A) (k : A -> M B) s s' :
  m s = (Undefined, s') -> bind m k s = (Undefined, s').
Proof. intros H. unfold bind. rewrite H. reflexivity. Qed.

Lemma bind_ok_inv {A B} (m : M A) (k : A -> M B) s b s2 :
  bind m k s = (Ok b, s2) ->
  exists a s1, m s = (Ok a, s1) /\ k a s1 = (Ok b, s2).
Proof.
  unfold bind. destruct (m s) as [[a | e |] s1]; intros H; try discriminate H.
  exists a, s1. split; [reflexivity | exact H].
Qed.

Lemma bind_raise_inv {A B} (m : M A) (k : A -> M B) s e s2 :
  bind m k s = (Raise e, s2) ->
  m s = (Raise e, s2)
  \/ exists a s1, m s = (Ok a, s1) /\ k a s1 = (Raise e, s2).
Proof.
  unfold bind. destruct (m s) as [[a | e' |] s1]; intros H; try discriminate H.
  - right. exists a, s1. split; [reflexivity | exact H].
  - left. inversion H. reflexivity.
Qed.

(** The outcomes of a mode on a stream. *)
Lemma spec_decode_raise unhandled m base s e s' :
  spec_decode unhandled m base s = (Raise e, s') ->
  s' = s /\ ((m = Unhandled /\ e = unhandled)
             \/ (m <> Unhandled /\ e = OutOfBounds
                 /\ (length (buffer s) < pos s + spec_width m)%nat)).
Proof.
  unfold spec_decode.
  destruct m as [w | | w | w |]; cbn [spec_width];
    try discriminate;
    try (destruct (Nat.leb_spec (pos s + w) (length (buffer s))) as [Hle | Hlt];
         intros H; inversion H; subst; split; [reflexivity |];
         right; repeat split; [discriminate | exact Hlt]).
  intros H. inversion H; subst. split; [reflexivity |].
  left. split; reflexivity.
Qed.

(** ** The offset of a record *)

Lemma read_offset_unscaled hi pointer_size prevOffset s :
  Z.land hi 8 = 0 ->
  read_offset hi pointer_size prevOffset s
  = spec_decode (UnhandledTag 154) (spec_mode (Z.land hi 7)) prevOffset s.
Proof.
  intros H. unfold read_offset. rewrite H. cbn [Z.eqb negb].
  unfold bind at 1. unfold ret at 1. unfold bind.
  rewrite read_offset_mode_spec.
  destruct (spec_decode _ _ _ _) as [[v | e |] s1]; reflexivity.
Qed.

Lemma read_offset_scaled hi pointer_size prevOffset s :
  Z.land hi 8 <> 0 ->
  int32_to_u64 pointer_size <> 0 ->
  read_offset hi pointer_size prevOffset s
  = match spec_decode (UnhandledTag 154) (spec_mode (Z.land hi 7))
            (prevOffset / int32_to_u64 pointer_size) s with
    | (Ok value, s1) => (Ok (u64 (value * int32_to_u64 pointer_size)), s1)
    | (Raise e, s1) => (Raise e, s1)
    | (Undefined, s1) => (Undefined, s1)
    end.
Proof.
  intros Hbit Hps. unfold read_offset, udiv.
  apply Z.eqb_neq in Hbit. apply Z.eqb_neq in Hps. rewrite Hbit, Hps.
  cbn [negb]. unfold bind at 1. unfold ret at 1. unfold bind.
  rewrite read_offset_mode_spec.
  destruct (spec_decode _ _ _ _) as [[v | e |] s1]; reflexivity.
Qed.

Lemma read_offset_zero_divisor hi pointer_size prevOffset s :
  Z.land hi 8 <> 0 ->
  int32_to_u64 pointer_size = 0 ->
  read_offset hi pointer_size prevOffset s = (Undefined, s).
Proof.
  intros Hbit Hps. unfold read_offset, udiv.
  apply Z.eqb_neq in Hbit. rewrite Hbit, Hps. reflexivity.
Qed.

(** ** Which exceptions a computation can throw *)

Lemma raises_only_ret {A} P (a : A) : raises_only P (ret a).
Proof. intros s e s' H. discriminate H. Qed.

Lemma raises_only_raise {A} (P : error -> Prop) e :
  P e -> raises_only P (@raise A e).
Proof. intros HP s e' s' H. inversion H; subst. exact HP. Qed.

Lemma raises_only_bind {A B} P (m : M A) (k : A -> M B) :
  raises_only P m -> (forall a, raises_only P (k a)) ->
  raises_only P (bind m k).
Proof.
  intros Hm Hk s e s' H.
  destruct (bind_raise_inv _ _ _ _ _ H) as [H1 | (a & s1 & _ & H2)].
  - exact (Hm _ _ _ H1).
  - exact (Hk _ _ _ _ H2).
Qed.

Lemma raises_only_read_bytes P n : P OutOfBounds -> raises_only P (read_bytes n).
Proof.
  intros HP s e s'. unfold read_bytes.
  destruct (_ <=? _)%nat; intros H; inversion H; subst. exact HP.
Qed.

Lemma raises_only_seek_relative P delta :
  P OutOfBounds -> raises_only P (seek_relative delta).
Proof.
  intros HP s e s'. unfold seek_relative.
  destruct (_ && _); intros H; inversion H; subst. exact HP.
Qed.

Lemma read_header_raises : raises_only header_error read_header.
Proof.
  assert (header_error OutOfBounds) as Hoob by (left; reflexivity).
  unfold read_header, read_int32, read_int32s.
  repeat first
    [ apply raises_only_bind; [| intros ?]
    | apply raises_only_read_bytes; exact Hoob
    | apply raises_only_seek_relative; exact Hoob
    | apply raises_only_ret ].
  match goal with
  | |- raises_only _ (match ?f with _ => _ end) =>
      assert (raises_only header_error (@raise unit (InvalidFormat f))) as Hr
        by (apply raises_only_raise; right; eexists; reflexivity);
      destruct f as [| [p | [p | p |] |] | p];
        first [ exact Hr | apply raises_only_ret ]
  end.
Qed.

(** A format other than 1 and 2 stops the header decoder right after the
    format field. *)
Lemma read_header_invalid (s : span_istream) :
  (pos s + 4 <= length (buffer s))%nat ->
  let format := to_int32 (from_le (firstn 4 (remaining s))) in
  format <> 1 -> format <> 2 ->
  read_header s = (Raise (InvalidFormat format), advance 4 s).
Proof.
  intros Hlen format H1 H2. unfold read_header.
  unfold bind at 1. unfold read_int32. unfold bind at 1.
  rewrite read_bytes_enough by exact Hlen.
  unfold ret at 1. fold format. fold (advance 4 s).
  unfold bind at 1.
  destruct format as [| [p | [p | p |] |] | p]; try reflexivity; congruence.
Qed.

Lemma read_file_header_raise {heap : Allocator} (s : span_istream) e s' :
  read_header s = (Raise e, s') -> read_file s = (Raise e, s').
Proof. intros H. unfold read_file. apply bind_raise. exact H. Qed.

Lemma read_file_header_ok {heap : Allocator} (s : span_istream) h s1 :
  read_header s = (Ok h, s1) ->
  read_file s
  = if (address_count h <? 0) || (max_size <? address_count h)
    then (Raise LengthError, s1)
    else if can_allocate (address_count h)
         then read_mappings (Z.to_nat (address_count h)) (pointer_size h) 0 0 s1
         else (Raise BadAlloc, s1).
Proof.
  intros H. unfold read_file. rewrite (bind_ok _ _ _ _ _ H).
  unfold bind, vector_of_size.
  destruct ((address_count h <? 0) || (max_size <? address_count h));
    [reflexivity |].
  destruct (can_allocate (address_count h)); reflexivity.
Qed.

Lemma read_file_allocated {heap : Allocator} (s : span_istream) h s1 :
  read_header s = (Ok h, s1) ->
  allocated (address_count h) ->
  read_file s
  = read_mappings (Z.to_nat (address_count h)) (pointer_size h) 0 0 s1.
Proof.
  intros H [Hcount Hroom]. rewrite (read_file_header_ok _ _ _ H).
  destruct (Z.ltb_spec (address_count h) 0); [lia |].
  destruct (Z.ltb_spec max_size (address_count h)); [lia |].
  cbn [orb]. rewrite Hroom. reflexivity.
Qed.

Lemma allocated_zero {heap : Allocator} : allocated 0.
Proof.
  split; [| apply allocate_nothing].
  pose proof max_size_nonneg. lia.
Qed.

(** Whatever [read_file] gives that is not an exception of the vector comes
    from the loop, run with the vector in place. *)
Lemma read_file_loop {heap : Allocator} (s : span_istream) h s1 r s2 :
  read_header s = (Ok h, s1) ->
  read_file s = (r, s2) ->
  r <> Raise LengthError -> r <> Raise BadAlloc ->
  allocated (address_count h)
  /\ read_mappings (Z.to_nat (address_count h)) (pointer_size h) 0 0 s1
     = (r, s2).
Proof.
  intros Hh H Hlen Hbad. rewrite (read_file_header_ok _ _ _ Hh) in H.
  unfold allocated.
  destruct (Z.ltb_spec (address_count h) 0);
    [cbn [orb] in H; inversion H; subst; contradiction |].
  destruct (Z.ltb_spec max_size (address_count h));
    [cbn [orb] in H; inversion H; subst; contradiction |].
  cbn [orb] in H.
  destruct (can_allocate (address_count h));
    [| inversion H; subst; contradiction].
  repeat split; try lia. exact H.
Qed.

(** ** Exceptions of one record *)

Lemma sub_mode_handled (hi : Z) : spec_mode (Z.land hi 7) <> Unhandled.
Proof.
  intros H. apply spec_mode_unhandled in H. apply H. apply sub_mode_range.
Qed.

(** The offset part of a record throws nothing but the cursor's exception. *)
Lemma read_offset_raise hi pointer_size prevOffset s e s' :
  read_offset hi pointer_size prevOffset s = (Raise e, s') ->
  e = OutOfBounds /\ s' = s.
Proof.
  pose proof (sub_mode_handled hi) as Hm.
  destruct (Z.eq_dec (Z.land hi 8) 0) as [Hbit | Hbit].
  - rewrite read_offset_unscaled by exact Hbit. intros H.
    apply spec_decode_raise in H.
    destruct H as [Hs [[Hu _] | (_ & He & _)]]; [contradiction | auto].
  - destruct (Z.eq_dec (int32_to_u64 pointer_size) 0) as [Hps | Hps].
    + rewrite read_offset_zero_divisor by assumption. discriminate.
    + rewrite read_offset_scaled by assumption.
      destruct (spec_decode _ _ _ s) as [[v | e1 |] s1] eqn:Hd;
        intros H; inversion H; subst.
      apply spec_decode_raise in Hd.
      destruct Hd as [Hs [[Hu _] | (_ & He & _)]]; [contradiction | auto].
Qed.

(** A record throws [UnhandledTag] exactly when its tag byte is there and
    has a low nibble of 8 or more; the throw site is then the first switch
    and the stream stands just behind the tag. *)
Lemma read_mapping_unhandled pointer_size prevID prevOffset s line s' :
  read_mapping pointer_size prevID prevOffset s = (Raise (UnhandledTag line), s')
  <-> ((pos s < length (buffer s))%nat
       /\ 8 <= Z.land (byte_at s) 15 <= 15
       /\ line = 123%nat /\ s' = advance 1 s).
Proof.
  split.
  - destruct (Nat.lt_ge_cases (pos s) (length (buffer s))) as [Hlen | Hlen].
    + rewrite read_mapping_tag by exact Hlen. intros H.
      apply bind_raise_inv in H.
      destruct H as [H | (id & s1 & _ & H)].
      * rewrite read_id_spec in H. apply spec_decode_raise in H.
        destruct H as [Hs [[Hu He] | (_ & He & _)]]; [| discriminate He].
        inversion He; subst. apply spec_mode_unhandled in Hu.
        pose proof (lo_nibble_range (byte_at s)).
        repeat split; try reflexivity; lia.
      * apply bind_raise_inv in H.
        destruct H as [H | (off & s2 & _ & H)]; [| discriminate H].
        apply read_offset_raise in H. destruct H as [He _]. discriminate He.
    + rewrite read_mapping_no_tag by exact Hlen. discriminate.
  - intros (Hlen & Hlo & -> & ->).
    rewrite read_mapping_tag by exact Hlen.
    apply bind_raise. rewrite read_id_spec.
    assert (spec_mode (Z.land (byte_at s) 15) = Unhandled) as ->
        by (apply spec_mode_unhandled; lia).
    reflexivity.
Qed.

(** ** The loop *)

Lemma read_mappings_length n pointer_size prevID prevOffset s ms s' :
  read_mappings n pointer_size prevID prevOffset s = (Ok ms, s') ->
  length ms = n.
Proof.
  revert prevID prevOffset s ms s'.
  induction n as [| n IH]; intros prevID prevOffset s ms s' H.
  - inversion H. reflexivity.
  - cbn [read_mappings] in H.
    apply bind_ok_inv in H. destruct H as (m & s1 & _ & H).
    apply bind_ok_inv in H. destruct H as (rest & s2 & Hrest & H).
    inversion H; subst. cbn [length]. f_equal. exact (IH _ _ _ _ _ Hrest).
Qed.

(** An exception of the loop is the exception of one of its turns. *)
Lemma read_mappings_raise_inv n pointer_size prevID prevOffset s e s' :
  read_mappings n pointer_size prevID prevOffset s = (Raise e, s') ->
  exists prevID' prevOffset' s1,
    read_mapping pointer_size prevID' prevOffset' s1 = (Raise e, s').
Proof.
  revert prevID prevOffset s.
  induction n as [| n IH]; intros prevID prevOffset s H.
  - discriminate H.
  - cbn [read_mappings] in H. apply bind_raise_inv in H.
    destruct H as [H | (m & s1 & _ & H)].
    + exists prevID, prevOffset, s. exact H.
    + apply bind_raise_inv in H.
      destruct H as [H | (rest & s2 & _ & H)]; [| discriminate H].
      exact (IH _ _ _ H).
Qed.

Lemma last_cons_default {A} (x : A) (l : list A) (d : A) :
  last (x :: l) d = last l x.
Proof.
  revert x d. induction l as [| y l IH]; intros x d; [reflexivity |].
  change (last (x :: y :: l) d) with (last (y :: l) d).
  rewrite (IH y d). symmetry. apply IH.
Qed.

(** If [k] turns go well and turn [k] of [n] throws, the loop throws. *)
Lemma read_mappings_fail_at k n pointer_size prevID prevOffset s ms sk e s' :
  (k < n)%nat ->
  read_mappings k pointer_size prevID prevOffset s = (Ok ms, sk) ->
  read_mapping pointer_size (fst (carried ms prevID prevOffset))
               (snd (carried ms prevID prevOffset)) sk = (Raise e, s') ->
  read_mappings n pointer_size prevID prevOffset s = (Raise e, s').
Proof.
  revert n prevID prevOffset s ms.
  induction k as [| k IH]; intros n prevID prevOffset s ms Hk Hok Hfail;
    (destruct n as [| n]; [lia |]); cbn [read_mappings].
  - inversion Hok; subst. apply bind_raise. exact Hfail.
  - cbn [read_mappings] in Hok.
    apply bind_ok_inv in Hok. destruct Hok as (m & s1 & Hm & Hok).
    apply bind_ok_inv in Hok. destruct Hok as (rest & s2 & Hrest & Hok).
    inversion Hok; subst.
    rewrite (bind_ok _ _ _ _ _ Hm). apply bind_raise.
    apply (IH n (fst m) (snd m) s1 rest); [lia | exact Hrest |].
    unfold carried in *. rewrite last_cons_default in Hfail.
    rewrite <- surjective_pairing. exact Hfail.
Qed.

(** ** Truncated records *)

Lemma advance_0 (s : span_istream) : advance 0 s = s.
Proof. destruct s as [b p]. unfold advance. cbn. f_equal. lia. Qed.

Lemma spec_decode_enough unhandled m base s :
  m <> Unhandled ->
  (pos s + spec_width m <= length (buffer s))%nat ->
  exists v, spec_decode unhandled m base s = (Ok v, advance (spec_width m) s).
Proof.
  intros Hm Hlen. unfold spec_decode.
  destruct m as [w | | w | w |]; cbn [spec_width] in *;
    try contradiction;
    try (destruct (Nat.leb_spec (pos s + w) (length (buffer s)));
         [eexists; reflexivity | lia]).
  rewrite advance_0. eexists; reflexivity.
Qed.

Lemma spec_decode_short unhandled m base s :
  m <> Unhandled ->
  (pos s <= length (buffer s))%nat ->
  (length (buffer s) < pos s + spec_width m)%nat ->
  spec_decode unhandled m base s = (Raise OutOfBounds, s).
Proof.
  intros Hm Hpos Hlen. unfold spec_decode.
  destruct m as [w | | w | w |]; cbn [spec_width] in *;
    try contradiction; try lia;
    (destruct (Nat.leb_spec (pos s + w) (length (buffer s)));
     [lia | reflexivity]).
Qed.

Lemma read_mapping_truncated pointer_size prevID prevOffset s :
  fields_short s = true ->
  unhandled_first s = false ->
  division_first pointer_size s = false ->
  exists s',
    read_mapping pointer_size prevID prevOffset s = (Raise OutOfBounds, s').
Proof.
  unfold fields_short, unhandled_first, division_first.
  set (lo := Z.land (byte_at s) 15).
  set (hi := Z.shiftr (byte_at s) 4).
  destruct (Nat.leb_spec (length (buffer s)) (pos s)) as [Hno | Htag].
  - intros _ _ _. exists s. apply read_mapping_no_tag. exact Hno.
  - cbn [orb]. intros Hshort Hlo Hdiv.
    apply Nat.ltb_lt in Hshort.
    destruct (Nat.ltb_spec (pos s) (length (buffer s))) as [_ | ?]; [| lia].
    cbn [andb] in Hlo. apply Z.ltb_ge in Hlo.
    destruct (Z.leb_spec lo 7) as [_ | ?]; [| lia].
    assert (spec_mode lo <> Unhandled) as Hm.
    { intros Hu. apply spec_mode_unhandled in Hu.
      pose proof (lo_nibble_range (byte_at s)) as Hr. fold lo in Hr. lia. }
    rewrite read_mapping_tag by exact Htag. fold lo hi.
    destruct (Nat.leb_spec (pos s + 1 + spec_width (spec_mode lo))
                           (length (buffer s))) as [Hid | Hid].
    + cbn [andb] in Hdiv.
      assert (pos (advance 1 s) + spec_width (spec_mode lo)
              <= length (buffer (advance 1 s)))%nat as Hid'
          by (cbn [advance pos buffer]; lia).
      destruct (spec_decode_enough (UnhandledTag 123) _ prevID _ Hm Hid')
        as [id Hd].
      rewrite <- read_id_spec in Hd. rewrite (bind_ok _ _ _ _ _ Hd).
      set (s1 := advance (spec_width (spec_mode lo)) (advance 1 s)) in *.
      assert (read_offset hi pointer_size prevOffset s1 = (Raise OutOfBounds, s1))
        as Hoff.
      { assert (forall base,
                   spec_decode (UnhandledTag 154) (spec_mode (Z.land hi 7)) base s1
                   = (Raise OutOfBounds, s1)) as Hsd.
        { intros base.
          apply spec_decode_short; [apply sub_mode_handled | |];
            subst s1; cbn [advance pos buffer] in *; lia. }
        destruct (Z.eqb_spec (Z.land hi 8) 0) as [Hbit | Hbit].
        - rewrite read_offset_unscaled by exact Hbit. apply Hsd.
        - cbn [negb andb] in Hdiv. apply Z.eqb_neq in Hdiv.
          rewrite read_offset_scaled by assumption. rewrite Hsd. reflexivity. }
      exists s1. apply bind_raise. exact Hoff.
    + exists (advance 1 s). apply bind_raise. rewrite read_id_spec.
      apply spec_decode_short; [exact Hm | |];
        cbn [advance pos buffer] in *; lia.
Qed.

Lemma read_mapping_division_first pointer_size prevID prevOffset s :
  division_first pointer_size s = true ->
  read_mapping pointer_size prevID prevOffset s
  = (Undefined,
     advance (spec_width (spec_mode (Z.land (byte_at s) 15))) (advance 1 s)).
Proof.
  unfold division_first. intros H.
  apply andb_prop in H. destruct H as [H Hps].
  apply andb_prop in H. destruct H as [H Hbit].
  apply andb_prop in H. destruct H as [Hfit Hlo].
  apply Nat.leb_le in Hfit. apply Z.leb_le in Hlo.
  apply negb_true_iff, Z.eqb_neq in Hbit. apply Z.eqb_eq in Hps.
  set (lo := Z.land (byte_at s) 15) in *.
  assert (spec_mode lo <> Unhandled) as Hm.
  { intros Hu. apply spec_mode_unhandled in Hu.
    pose proof (lo_nibble_range (byte_at s)) as Hr. fold lo in Hr. lia. }
  rewrite read_mapping_tag by lia. fold lo.
  assert (pos (advance 1 s) + spec_width (spec_mode lo)
          <= length (buffer (advance 1 s)))%nat as Hid
      by (cbn [advance pos buffer]; lia).
  destruct (spec_decode_enough (UnhandledTag 123) _ prevID _ Hm Hid)
    as [id Hd].
  rewrite <- read_id_spec in Hd. rewrite (bind_ok _ _ _ _ _ Hd).
  apply bind_undefined.
  apply read_offset_zero_divisor; assumption.
Qed.

Lemma read_mapping_unhandled_first pointer_size prevID prevOffset s :
  unhandled_first s = true ->
  read_mapping pointer_size prevID prevOffset s
  = (Raise (UnhandledTag 123), advance 1 s).
Proof.
  unfold unhandled_first. intros H.
  apply andb_prop in H. destruct H as [Htag Hlo].
  apply Nat.ltb_lt in Htag. apply Z.ltb_lt in Hlo.
  apply read_mapping_unhandled.
  pose proof (lo_nibble_range (byte_at s)).
  repeat split; try reflexivity; try assumption; lia.
Qed.

(** If [k] turns go well and turn [k] of [n] meets undefined behaviour, so
    does the loop. *)
Lemma read_mappings_undefined_at k n pointer_size prevID prevOffset s ms sk s' :
  (k < n)%nat ->
  read_mappings k pointer_size prevID prevOffset s = (Ok ms, sk) ->
  read_mapping pointer_size (fst (carried ms prevID prevOffset))
               (snd (carried ms prevID prevOffset)) sk = (Undefined, s') ->
  read_mappings n pointer_size prevID prevOffset s = (Undefined, s').
Proof.
  revert n prevID prevOffset s ms.
  induction k as [| k IH]; intros n prevID prevOffset s ms Hk Hok Hfail;
    (destruct n as [| n]; [lia |]); cbn [read_mappings].
  - inversion Hok; subst. apply bind_undefined. exact Hfail.
  - cbn [read_mappings] in Hok.
    apply bind_ok_inv in Hok. destruct Hok as (m & s1 & Hm & Hok).
    apply bind_ok_inv in Hok. destruct Hok as (rest & s2 & Hrest & Hok).
    inversion Hok; subst.
    rewrite (bind_ok _ _ _ _ _ Hm). apply bind_undefined.
    apply (IH n (fst m) (snd m) s1 rest); [lia | exact Hrest |].
    unfold carried in *. rewrite last_cons_default in Hfail.
    rewrite <- surjective_pairing. exact Hfail.
Qed.

(** ** Rendering of numbers *)

Lemma append_length (a b : string) :
  String.length (a ++ b) = (String.length a + String.length b)%nat.
Proof. induction a as [| c a IH]; cbn; [reflexivity | now rewrite IH]. Qed.

Lemma append_assoc (a b c : string) : ((a ++ b) ++ c = a ++ (b ++ c))%string.
Proof. induction a as [| x a IH]; cbn; [reflexivity | now rewrite IH]. Qed.

Lemma replicate_length (k : nat) (c : ascii) : String.length (replicate k c) = k.
Proof. induction k as [| k IH]; cbn; [reflexivity | now rewrite IH]. Qed.

Lemma value_from_append base v (a b : string) :
  value_from base v (a ++ b) = value_from base (value_from base v a) b.
Proof. revert v. induction a as [| c a IH]; intros v; cbn; [reflexivity | apply IH]. Qed.

Lemma all_chars_append P (a b : string) :
  all_chars P a -> all_chars P b -> all_chars P (a ++ b).
Proof.
  induction a as [| c a IH]; cbn; [intros _ H; exact H |].
  intros [Hc Ha] Hb. split; [exact Hc | exact (IH Ha Hb)].
Qed.

Lemma digit_val_char (d : Z) : 0 <= d < 36 -> digit_val (digit_char d) = d.
Proof.
  intros Hd. unfold digit_val, digit_char.
  destruct (Z.ltb_spec d 10) as [Hlt | Hge];
    rewrite nat_ascii_embedding by lia; rewrite Z2Nat.id by lia.
  - destruct (Z.ltb_spec (48 + d) 58); lia.
  - destruct (Z.ltb_spec (55 + d) 58); lia.
Qed.

(** What the digit loop gives when its fuel covers the bits of [n]. *)
Lemma digits_from_spec (base : Z) :
  2 <= base <= 36 ->
  forall (fuel : nat) (n : Z) (acc : string),
    (0 < fuel)%nat ->
    0 <= n < 2 ^ Z.of_nat fuel ->
    exists ds : string,
      digits_from base fuel n acc = (ds ++ acc)%string
      /\ value_from base 0 ds = n
      /\ all_chars (is_digit base) ds
      /\ (1 <= String.length ds)%nat
      /\ n < base ^ Z.of_nat (String.length ds)
      /\ (0 < n -> base ^ (Z.of_nat (String.length ds) - 1) <= n).
Proof.
  intros Hbase. induction fuel as [| fuel IH]; intros n acc Hfuel Hn.
  - lia.
  - cbn [digits_from].
    assert (0 <= n mod base < base) as Hr by (apply Z.mod_pos_bound; lia).
    assert (is_digit base (digit_char (n mod base))) as Hdig
        by (exists (n mod base); split; [exact Hr | reflexivity]).
    pose proof (Z.div_mod n base ltac:(lia)) as Hdm.
    destruct (Z.eqb_spec (n / base) 0) as [Hq | Hq].
    + exists (String (digit_char (n mod base)) EmptyString).
      cbn [append value_from String.length all_chars].
      rewrite digit_val_char by lia.
      rewrite Hq in Hdm.
      repeat split; try lia; exact Hdig.
    + assert (0 < n / base) as Hqpos.
      { pose proof (Z.div_pos n base). lia. }
      assert (n / base < 2 ^ Z.of_nat fuel) as Hqlt.
      { rewrite Nat2Z.inj_succ, Z.pow_succ_r in Hn by lia.
        apply Z.div_lt_upper_bound; [lia |].
        assert (0 < 2 ^ Z.of_nat fuel) by (apply Z.pow_pos_nonneg; lia).
        nia. }
      assert (0 < fuel)%nat as Hfuel'.
      { destruct fuel; [cbn in Hqlt; lia | lia]. }
      destruct (IH (n / base) (String (digit_char (n mod base)) acc)
                   Hfuel' ltac:(lia))
        as (ds & Heq & Hval & Hall & Hlen & Hub & Hlb).
      exists (ds ++ String (digit_char (n mod base)) EmptyString)%string.
      rewrite append_assoc. cbn [append].
      rewrite value_from_append, Hval, append_length.
      cbn [value_from String.length]. rewrite digit_val_char by lia.
      specialize (Hlb Hqpos).
      set (len := String.length ds) in *.
      assert (base ^ Z.of_nat len = base * base ^ (Z.of_nat len - 1)) as Hpow.
      { rewrite <- Z.pow_succ_r by lia. f_equal. lia. }
      repeat split.
      * exact Heq.
      * lia.
      * apply all_chars_append; [exact Hall |]. cbn. auto.
      * lia.
      * replace (Z.of_nat (len + 1)) with (Z.succ (Z.of_nat len)) by lia.
        rewrite Z.pow_succ_r by lia. nia.
      * intros _.
        replace (Z.of_nat (len + 1) - 1) with (Z.of_nat len) by lia.
        rewrite Hpow. nia.
Qed.

(** A rendered number reads back as itself, is made of digits of the base,
    and has as many characters as the number has digits. *)
Lemma render_spec (base n : Z) :
  2 <= base <= 36 -> 0 <= n ->
  value base (render base n) = n
  /\ all_chars (is_digit base) (render base n)
  /\ (1 <= String.length (render base n))%nat
  /\ n < base ^ Z.of_nat (String.length (render base n))
  /\ (0 < n -> base ^ (Z.of_nat (String.length (render base n)) - 1) <= n).
Proof.
  intros Hbase Hn. unfold render, value.
  assert (0 <= n < 2 ^ Z.of_nat (S (Z.to_nat (Z.log2 n)))) as Hfuel.
  { pose proof (Z.log2_nonneg n).
    rewrite Nat2Z.inj_succ, Z2Nat.id by lia.
    destruct (Z.eq_dec n 0) as [-> | Hnz]; [cbn; lia |].
    pose proof (Z.log2_spec n). lia. }
  destruct (digits_from_spec base Hbase _ n EmptyString (Nat.lt_0_succ _) Hfuel)
    as (ds & Heq & Hval & Hall & Hlen & Hub & Hlb).
  rewrite Heq.
  assert ((ds ++ EmptyString)%string = ds) as ->.
  { clear. induction ds as [| c ds IH]; cbn; [reflexivity | now rewrite IH]. }
  auto.
Qed.

(** A larger number has no fewer digits. *)
Lemma render_length_mono (base a b : Z) :
  2 <= base <= 36 -> 0 <= a <= b ->
  (String.length (render base a) <= String.length (render base b))%nat.
Proof.
  intros Hbase Hab.
  destruct (render_spec base a Hbase ltac:(lia)) as (_ & _ & Ha1 & _ & Halb).
  destruct (render_spec base b Hbase ltac:(lia)) as (_ & _ & _ & Hbub & _).
  destruct (Z.eq_dec a 0) as [-> | Hnz].
  - destruct (render_spec base b Hbase ltac:(lia)) as (_ & _ & Hb1 & _).
    destruct (render_spec base 0 Hbase ltac:(lia)) as (_ & _ & _ & _ & _).
    assert (String.length (render base 0) = 1%nat) as ->; [| exact Hb1].
    unfold render. cbn [Z.log2 Z.to_nat digits_from].
    rewrite Z.div_0_l by lia. reflexivity.
  - specialize (Halb ltac:(lia)).
    apply Nat.nlt_ge. intros Hlt.
    assert (base ^ Z.of_nat (String.length (render base b))
            <= base ^ (Z.of_nat (String.length (render base a)) - 1)) as Hle
        by (apply Z.pow_le_mono_r; lia).
    lia.
Qed.

(** ** The two sorts meet the contract *)

Lemma insert_by_perm {A} before_equal (comp : A -> A -> bool) x l :
  Permutation (x :: l) (insert_by before_equal comp x l).
Proof.
  induction l as [| y l IH]; cbn [insert_by]; [apply Permutation_refl |].
  destruct (comp x y); [apply Permutation_refl |].
  destruct (before_equal && negb (comp y x)); [apply Permutation_refl |].
  apply perm_trans with (y :: x :: l); [apply perm_swap |].
  apply perm_skip. exact IH.
Qed.

Lemma insertion_sort_perm {A} before_equal (comp : A -> A -> bool) l :
  Permutation l (insertion_sort before_equal comp l).
Proof.
  induction l as [| x l IH]; cbn; [apply perm_nil |].
  apply perm_trans with (x :: insertion_sort before_equal comp l).
  - apply perm_skip. exact IH.
  - apply insert_by_perm.
Qed.

Lemma swo_asym {A} (comp : A -> A -> bool) :
  strict_weak_order comp ->
  forall a b, comp a b = true -> comp b a = false.
Proof.
  intros Hswo a b Hab. destruct (comp b a) eqn:Hba; [| reflexivity].
  pose proof (swo_trans comp Hswo a b a Hab Hba) as Haa.
  rewrite (swo_irrefl comp Hswo a) in Haa. discriminate Haa.
Qed.

(** Nothing that is not below [y] is below an [x] that [y] is not below. *)
Lemma swo_not_below {A} (comp : A -> A -> bool) :
  strict_weak_order comp ->
  forall x y z, comp y x = false -> comp z y = false -> comp z x = false.
Proof.
  intros Hswo x y z Hyx Hzy.
  destruct (comp z x) eqn:Hzx; [exfalso | reflexivity].
  destruct (comp x y) eqn:Hxy.
  - rewrite (swo_trans comp Hswo z x y Hzx Hxy) in Hzy. discriminate Hzy.
  - destruct (comp y z) eqn:Hyz.
    + rewrite (swo_trans comp Hswo y z x Hyz Hzx) in Hyx. discriminate Hyx.
    + destruct (swo_equiv_trans comp Hswo z y x Hzy Hyz Hyx Hxy) as [Hc _].
      rewrite Hc in Hzx. discriminate Hzx.
Qed.

Lemma insert_by_sorted {A} before_equal (comp : A -> A -> bool) x l :
  strict_weak_order comp ->
  StronglySorted (fun a b => comp b a = false) l ->
  StronglySorted (fun a b => comp b a = false) (insert_by before_equal comp x l).
Proof.
  intros Hswo Hl. induction Hl as [| y l Hl IH Hy]; cbn [insert_by].
  - constructor; constructor.
  - assert (comp y x = false ->
            StronglySorted (fun a b => comp b a = false) (x :: y :: l)) as Hfront.
    { intros Hyx. constructor; [constructor; assumption |].
      constructor; [exact Hyx |].
      apply Forall_forall. intros z Hz.
      rewrite Forall_forall in Hy.
      exact (swo_not_below comp Hswo x y z Hyx (Hy z Hz)). }
    destruct (comp x y) eqn:Hxy.
    + apply Hfront. exact (swo_asym comp Hswo x y Hxy).
    + destruct (before_equal && negb (comp y x)) eqn:Hb.
      * apply Hfront. apply andb_prop in Hb. destruct Hb as [_ Hb].
        apply negb_true_iff in Hb. exact Hb.
      * constructor; [exact IH |].
        apply (Permutation_Forall (insert_by_perm before_equal comp x l)).
        constructor; assumption.
Qed.

Lemma insertion_sort_sorted {A} before_equal (comp : A -> A -> bool) l :
  strict_weak_order comp ->
  StronglySorted (fun a b => comp b a = false) (insertion_sort before_equal comp l).
Proof.
  intros Hswo. induction l as [| x l IH]; cbn; [constructor |].
  apply insert_by_sorted; assumption.
Qed.

(** The sort that keeps equivalent elements in their order of arrival, and
    the one that turns them around. *)
Definition stable_sorter : StdSort := {|
  std_sort := fun A => @insertion_sort A true;
  std_sort_perm := fun A => @insertion_sort_perm A true;
  std_sort_sorted := fun A => @insertion_sort_sorted A true
|}.

Definition reversing_sorter : StdSort := {|
  std_sort := fun A => @insertion_sort A false;
  std_sort_perm := fun A => @insertion_sort_perm A false;
  std_sort_sorted := fun A => @insertion_sort_sorted A false
|}.

(** ** The sorted mappings and their width *)

Lemma less_id_swo : strict_weak_order less_id.
Proof.
  unfold less_id. constructor.
  - intros a. apply Z.ltb_irrefl.
  - intros a b c Hab Hbc. apply Z.ltb_lt in Hab, Hbc. apply Z.ltb_lt. lia.
  - intros a b c Hab Hba Hbc Hcb.
    apply Z.ltb_ge in Hab, Hba, Hbc, Hcb. split; apply Z.ltb_ge; lia.
Qed.

Section Sorted.

Context {sorter : StdSort}.

Lemma sort_mappings_perm (l : list mapping) : Permutation l (sort_mappings l).
Proof. apply std_sort_perm. Qed.

Lemma sort_mappings_ascending (l : list mapping) : ascending (sort_mappings l).
Proof.
  pose proof (std_sort_sorted mapping less_id l less_id_swo) as H.
  unfold ascending, sort_mappings.
  eapply StronglySorted_ind with (P := fun l => StronglySorted _ l);
    [ constructor | | exact H ].
  intros a l0 _ IH Hall. constructor; [exact IH |].
  eapply Forall_impl; [| exact Hall].
  intros b Hb. unfold less_id in Hb. apply Z.ltb_ge in Hb. exact Hb.
Qed.

End Sorted.

Lemma max_id_upper (l : list mapping) :
  Forall (fun m => fst m <= max_id l) l.
Proof.
  induction l as [| x l IH]; constructor.
  - unfold max_id. cbn [fold_right]. lia.
  - eapply Forall_impl; [| exact IH]. intros m Hm.
    unfold max_id in *. cbn [fold_right]. cbn beta in *. lia.
Qed.

Lemma last_in {A} (x : A) (l : list A) (d : A) : In (last (x :: l) d) (x :: l).
Proof.
  revert x. induction l as [| y l IH]; intros x; [left; reflexivity |].
  right. apply IH.
Qed.

(** In an ascending sequence the last id is the largest. *)
Lemma ascending_last_max (l : list mapping) (d : mapping) :
  ascending l -> Forall (fun m => 0 <= fst m) l -> l <> [] ->
  fst (last l d) = max_id l.
Proof.
  intros Hs. induction Hs as [| x l Hs IH Hx]; intros Hpos Hne;
    [exfalso; apply Hne; reflexivity |].
  inversion Hpos as [| ? ? Hx0 Hpos']; subst.
  destruct l as [| y l].
  - cbn. lia.
  - change (last (x :: y :: l) d) with (last (y :: l) d).
    change (max_id (x :: y :: l)) with (Z.max (fst x) (max_id (y :: l))).
    rewrite <- (IH Hpos' ltac:(discriminate)).
    rewrite Forall_forall in Hx. specialize (Hx _ (last_in y l d)).
    cbn beta in Hx. symmetry. apply Z.max_r. exact Hx.
Qed.

Lemma log_mappings_lines (len : nat) (l : list mapping) (a_out : logger) :
  log_mappings len l a_out
  = a_out ++ map (fun m => format_line len (fst m) (snd m)) l.
Proof.
  unfold log_mappings. revert a_out.
  induction l as [| m l IH]; intros a_out; cbn [fold_left map].
  - rewrite app_nil_r. reflexivity.
  - rewrite IH. unfold info. rewrite <- app_assoc. reflexivity.
Qed.

(** ** Decoded values are 64-bit values *)

Lemma spec_decode_range unhandled m base s v s' :
  spec_decode unhandled m base s = (Ok v, s') -> 0 <= v < 2 ^ 64.
Proof.
  unfold spec_decode.
  destruct m; try discriminate;
    try (destruct (_ <=? _)%nat; try discriminate);
    intros H; inversion H; apply u64_range.
Qed.

Lemma read_offset_range hi pointer_size prevOffset s v s' :
  read_offset hi pointer_size prevOffset s = (Ok v, s') -> 0 <= v < 2 ^ 64.
Proof.
  destruct (Z.eq_dec (Z.land hi 8) 0) as [Hbit | Hbit].
  - rewrite read_offset_unscaled by exact Hbit. apply spec_decode_range.
  - destruct (Z.eq_dec (int32_to_u64 pointer_size) 0) as [Hps | Hps].
    + rewrite read_offset_zero_divisor by assumption. discriminate.
    + rewrite read_offset_scaled by assumption.
      destruct (spec_decode _ _ _ s) as [[v1 | e1 |] s1];
        intros H; inversion H. apply u64_range.
Qed.

Lemma read_mapping_range pointer_size prevID prevOffset s m s' :
  read_mapping pointer_size prevID prevOffset s = (Ok m, s') -> in_range m.
Proof.
  destruct (Nat.lt_ge_cases (pos s) (length (buffer s))) as [Hlen | Hlen].
  - rewrite read_mapping_tag by exact Hlen. intros H.
    apply bind_ok_inv in H. destruct H as (id & s1 & Hid & H).
    apply bind_ok_inv in H. destruct H as (off & s2 & Hoff & H).
    inversion H; subst. rewrite read_id_spec in Hid. split; cbn [fst snd].
    + exact (spec_decode_range _ _ _ _ _ _ Hid).
    + exact (read_offset_range _ _ _ _ _ _ Hoff).
  - rewrite read_mapping_no_tag by exact Hlen. discriminate.
Qed.

Lemma read_mappings_range n pointer_size prevID prevOffset s ms s' :
  read_mappings n pointer_size prevID prevOffset s = (Ok ms, s') ->
  Forall in_range ms.
Proof.
  revert prevID prevOffset s ms s'.
  induction n as [| n IH]; intros prevID prevOffset s ms s' H.
  - inversion H. constructor.
  - cbn [read_mappings] in H.
    apply bind_ok_inv in H. destruct H as (m & s1 & Hm & H).
    apply bind_ok_inv in H. destruct H as (rest & s2 & Hrest & H).
    inversion H; subst. constructor.
    + exact (read_mapping_range _ _ _ _ _ _ Hm).
    + exact (IH _ _ _ _ _ Hrest).
Qed.

(** ** Emission after decoding *)

Section Dump.

Context {sorter : StdSort} {heap : Allocator}.

Lemma dump_mappings_ok s mappings s2 a_out :
  read_file s = (Ok mappings, s2) ->
  dump_mappings s a_out
  = (Ok tt, s2,
     a_out ++ map (fun m => format_line (id_width (sort_mappings mappings))
                                        (fst m) (snd m))
                  (sort_mappings mappings)).
Proof.
  intros H. unfold dump_mappings. rewrite H.
  rewrite log_mappings_lines. reflexivity.
Qed.

Lemma dump_mappings_raise s e s' a_out :
  read_file s = (Raise e, s') ->
  dump_mappings s a_out = (Raise e, s', a_out).
Proof. intros H. unfold dump_mappings. rewrite H. reflexivity. Qed.

End Dump.

(** ** The lines of the report *)



Lemma read_file_range {heap : Allocator} s mappings s2 :
  read_file s = (Ok mappings, s2) -> Forall in_range mappings.
Proof.
  intros H. unfold read_file in H.
  apply bind_ok_inv in H. destruct H as (h & s1 & _ & H).
  apply bind_ok_inv in H. destruct H as (n & s1' & _ & H).
  exact (read_mappings_range _ _ _ _ _ _ _ H).
Qed.

(** * The claims *)

(** C1. The id of a record is decoded from the low nibble [lo] of its tag
    byte as the mode table says: 0 reads an absolute little-endian 64-bit
    id, 1 gives [prev_id + 1], 2 and 3 add and subtract a read 8-bit value,
    4 and 5 a read 16-bit value, 6 and 7 read an absolute 16-bit and 32-bit
    id, 8 to 15 fail with [UnhandledTag]; all results are taken modulo
    2^64, so a subtraction below zero wraps around.  With [prev_id = 100]:
    mode 1 gives 101, mode 2 on the byte 5 gives 105, mode 3 on the byte 5
    gives 95 (and, from [prev_id = 0], 2^64 - 5). *)
Theorem C1_id_mode_table (lo prevID : Z) (s : span_istream) :
  read_id lo prevID s = spec_decode (UnhandledTag 123) (spec_mode lo) prevID s
  /\ (forall pointer_size prevOffset s0,
         (pos s0 < length (buffer s0))%nat ->
         lo = Z.land (byte_at s0) 15 -> s = advance 1 s0 ->
         read_mapping pointer_size prevID prevOffset s0
         = (id <- read_id lo prevID ;;
            offset <- read_offset (Z.shiftr (byte_at s0) 4) pointer_size prevOffset ;;
            ret (id, offset)) s)
  /\ (8 <= lo <= 15 -> read_id lo prevID s = (Raise (UnhandledTag 123), s))
  /\ read_id 1 100 s = (Ok 101, s)
  /\ ((pos s < length (buffer s))%nat -> byte_at s = 5 ->
      read_id 2 100 s = (Ok 105, advance 1 s)
      /\ read_id 3 100 s = (Ok 95, advance 1 s)
      /\ read_id 3 0 s = (Ok (2 ^ 64 - 5), advance 1 s)).
Proof.
  split; [apply read_id_spec |].
  split.
  { intros pointer_size prevOffset s0 Hlen -> ->.
    apply read_mapping_tag. exact Hlen. }
  split.
  { intros Hlo. rewrite read_id_spec.
    assert (spec_mode lo = Unhandled) as -> by (apply spec_mode_unhandled; lia).
    reflexivity. }
  split; [reflexivity |].
  intros Hlen Htag.
  rewrite !read_id_spec. unfold spec_decode. cbn [spec_mode spec_width spec_value].
  destruct (Nat.leb_spec (pos s + 1) (length (buffer s))) as [_ | Hlt]; [| lia].
  fold (byte_at s). rewrite Htag. fold (advance 1 s).
  repeat split.
Qed.

Lemma C1_witness :
  let s := open_file (map byte_of_Z [5]) in
  read_id 3 100 s = (Ok 95, advance 1 s)
  /\ read_id 9 100 s = (Raise (UnhandledTag 123), s).
Proof.
  intros s.
  destruct (C1_id_mode_table 9 100 s) as (_ & _ & Hhigh & _ & Hbyte).
  split.
  - apply Hbyte; [cbn; lia | reflexivity].
  - apply Hhigh. lia.
Defined.

(** C2. When bit 3 of the high nibble is set, the base of the offset is
    [tmp = prev_offset / pointer_size] (integer division, on 64-bit
    unsigned values) before the sub-mode [hi & 7] is run, and whatever the
    sub-mode gives, absolute modes included, is multiplied by
    [pointer_size] (modulo 2^64).  With [prev_offset = 16],
    [pointer_size = 4] and sub-mode 1 the offset is (16/4 + 1) * 4 = 20. *)
Theorem C2_pointer_scaling (hi pointer_size prevOffset : Z) (s : span_istream) :
  Z.land hi 8 <> 0 ->
  int32_to_u64 pointer_size <> 0 ->
  let divisor := int32_to_u64 pointer_size in
  let tmp := prevOffset / divisor in
  read_offset hi pointer_size prevOffset s
  = match spec_decode (UnhandledTag 154) (spec_mode (Z.land hi 7)) tmp s with
    | (Ok value, s1) => (Ok (u64 (value * divisor)), s1)
    | (Raise e, s1) => (Raise e, s1)
    | (Undefined, s1) => (Undefined, s1)
    end
  /\ spec_mode (Z.land hi 7) <> Unhandled
  /\ (0 < pointer_size < 2 ^ 31 -> divisor = pointer_size)
  /\ (prevOffset = 16 -> pointer_size = 4 -> Z.land hi 7 = 1 ->
      read_offset hi pointer_size prevOffset s = (Ok 20, s)).
Proof.
  intros Hbit Hps divisor tmp.
  split; [apply read_offset_scaled; assumption |].
  split; [apply sub_mode_handled |].
  split.
  { intros Hpos. unfold divisor, int32_to_u64. apply Z.mod_small. lia. }
  intros -> -> Hmode.
  rewrite read_offset_scaled by assumption. rewrite Hmode. reflexivity.
Qed.

Lemma C2_witness :
  let s := open_file [] in
  Z.land 9 8 <> 0 /\ int32_to_u64 4 <> 0
  /\ read_offset 9 4 16 s = (Ok 20, s).
Proof.
  intros s.
  assert (Z.land 9 8 <> 0) as Hbit by (cbn; discriminate).
  assert (int32_to_u64 4 <> 0) as Hps by (cbn; discriminate).
  split; [exact Hbit |]. split; [exact Hps |].
  destruct (C2_pointer_scaling 9 4 16 s Hbit Hps) as (_ & _ & _ & Hex).
  apply Hex; reflexivity.
Defined.

(** C3. When a file decodes without error, as many lines are written as
    the [address_count] field of its header says; with [address_count = 0]
    the decoder succeeds (with no mapping) and no line is written. *)
Theorem C3_line_count (sorter : StdSort) (heap : Allocator)
        (s : span_istream) (a_out : logger)
        (h : header_t) (s1 : span_istream) :
  read_header s = (Ok h, s1) ->
  (forall mappings s2,
      read_file s = (Ok mappings, s2) ->
      exists lines,
        dump_mappings s a_out = (Ok tt, s2, a_out ++ lines)
        /\ Z.of_nat (length lines) = address_count h)
  /\ (address_count h = 0 ->
      read_file s = (Ok [], s1)
      /\ dump_mappings s a_out = (Ok tt, s1, a_out)).
Proof.
  intros Hh. split.
  - intros mappings s2 Hf.
    eexists. split; [apply dump_mappings_ok; exact Hf |].
    rewrite length_map.
    rewrite <- (Permutation_length (sort_mappings_perm mappings)).
    destruct (read_file_loop _ _ _ _ _ Hh Hf ltac:(discriminate)
                             ltac:(discriminate)) as [[Hpos _] Hloop].
    rewrite (read_mappings_length _ _ _ _ _ _ _ Hloop). lia.
  - intros H0.
    assert (read_file s = (Ok [], s1)) as Hf.
    { rewrite (read_file_allocated _ _ _ Hh)
        by (rewrite H0; apply allocated_zero).
      rewrite H0. reflexivity. }
    split; [exact Hf |].
    rewrite (dump_mappings_ok _ _ _ a_out Hf).
    assert (sort_mappings [] = []) as ->.
    { apply Permutation_nil. apply sort_mappings_perm. }
    cbn [map]. rewrite app_nil_r. reflexivity.
Qed.

Lemma C3_witness :
  (exists lines,
      dump_mappings (sorter := stable_sorter) (heap := sample_heap)
                    (open_file sample_file) []
      = (Ok tt, mk_span_istream sample_file 55, [] ++ lines)
      /\ Z.of_nat (length lines) = 4)
  /\ dump_mappings (sorter := stable_sorter) (heap := sample_heap)
                   (open_file empty_file) []
     = (Ok tt, mk_span_istream empty_file 35, []).
Proof.
  split.
  - destruct (C3_line_count stable_sorter sample_heap (open_file sample_file) []
                (mk_header 1 [1; 5; 97; 0] 8 4)
                (mk_span_istream sample_file 35)) as [Hlines _].
    + vm_compute. reflexivity.
    + apply (Hlines [(300, 4096); (301, 4097); (296, 4104); (300, 305419896)]).
      vm_compute. reflexivity.
  - destruct (C3_line_count stable_sorter sample_heap (open_file empty_file) []
                (mk_header 1 [1; 5; 97; 0] 8 0)
                (mk_span_istream empty_file 35)) as [_ Hempty].
    + vm_compute. reflexivity.
    + apply Hempty. reflexivity.
Defined.

(** C4. After a successful decode the pairs that are written, in the order
    of their lines, are a permutation of the decoded mappings -- a pair
    decoded twice or an id met twice is written twice -- and their ids never
    decrease from one line to the next.  In which order pairs of the same id
    come is left open: two sorts that both meet the contract of [std::sort]
    write the two pairs of id 300 of the sample file in different orders. *)
Theorem C4_sorted_permutation :
  (forall (sorter : StdSort) (heap : Allocator)
          (s : span_istream) (a_out : logger)
          (mappings : list mapping) (s2 : span_istream),
      read_file s = (Ok mappings, s2) ->
      exists emitted,
        Permutation mappings emitted
        /\ ascending emitted
        /\ Forall in_range emitted
        /\ dump_mappings s a_out
           = (Ok tt, s2,
              a_out ++ map (fun m => format_line (id_width emitted) (fst m) (snd m))
                           emitted))
  /\ (exists mappings s2,
         read_file (heap := sample_heap) (open_file sample_file)
         = (Ok mappings, s2)
         /\ @sort_mappings stable_sorter mappings
            = [(296, 4104); (300, 4096); (300, 305419896); (301, 4097)]
         /\ @sort_mappings reversing_sorter mappings
            = [(296, 4104); (300, 305419896); (300, 4096); (301, 4097)]).
Proof.
  split.
  - intros sorter heap s a_out mappings s2 Hf.
    exists (sort_mappings mappings).
    split; [apply sort_mappings_perm |].
    split; [apply sort_mappings_ascending |].
    split.
    { apply (Permutation_Forall (sort_mappings_perm mappings)).
      exact (read_file_range _ _ _ Hf). }
    apply dump_mappings_ok. exact Hf.
  - eexists. eexists.
    split; [vm_compute; reflexivity |].
    split; vm_compute; reflexivity.
Qed.

Lemma C4_witness :
  exists emitted,
    Permutation [(300, 4096); (301, 4097); (296, 4104); (300, 305419896)] emitted
    /\ ascending emitted
    /\ Forall in_range emitted
    /\ dump_mappings (sorter := reversing_sorter) (heap := sample_heap)
                     (open_file sample_file) []
       = (Ok tt, mk_span_istream sample_file 55,
          [] ++ map (fun m => format_line (id_width emitted) (fst m) (snd m))
                    emitted).
Proof.
  apply (proj1 C4_sorted_permutation reversing_sorter sample_heap
               (open_file sample_file) []).
  vm_compute. reflexivity.
Defined.



(** C6, as the code has it.  A zero [pointer_size] is not guarded: when a
    record asks for pointer scaling, the division
    [prevOffset / header.pointer_size] of main.cpp:126 runs with a zero
    divisor as soon as the id of the record is decoded, which is undefined
    behaviour; and no exception of the decoder is a [DivisionFault]. *)
Theorem C6_unguarded_division (heap : Allocator)
        (hi pointer_size prevOffset : Z) (s : span_istream) :
  Z.land hi 8 <> 0 ->
  pointer_size = 0 ->
  read_offset hi pointer_size prevOffset s = (Undefined, s)
  /\ (forall prevID s0 id,
         (pos s0 < length (buffer s0))%nat ->
         hi = Z.shiftr (byte_at s0) 4 ->
         read_id (Z.land (byte_at s0) 15) prevID (advance 1 s0) = (Ok id, s) ->
         read_mapping pointer_size prevID prevOffset s0 = (Undefined, s))
  /\ (forall s0 e s', read_file s0 = (Raise e, s') ->
                      kind_of e <> Some KDivisionFault).
Proof.
  intros Hbit ->.
  assert (read_offset hi 0 prevOffset s = (Undefined, s)) as Hoff
      by (apply read_offset_zero_divisor; [exact Hbit | reflexivity]).
  split; [exact Hoff |].
  split.
  - intros prevID s0 id Hlen Hhi Hid.
    rewrite read_mapping_tag by exact Hlen.
    rewrite (bind_ok _ _ _ _ _ Hid). apply bind_undefined.
    rewrite <- Hhi. exact Hoff.
  - intros s0 e s' _. destruct e; discriminate.
Qed.

Lemma C6_witness :
  let s0 := mk_span_istream zero_pointer_file 35 in
  Z.land (Z.shiftr (byte_at s0) 4) 8 <> 0
  /\ read_mapping 0 0 0 s0 = (Undefined, advance 1 s0)
  /\ read_file (heap := sample_heap) (open_file zero_pointer_file)
     = (Undefined, advance 1 s0).
Proof.
  intros s0.
  assert (Z.land (Z.shiftr (byte_at s0) 4) 8 <> 0) as Hbit
      by (vm_compute; discriminate).
  split; [exact Hbit |].
  destruct (C6_unguarded_division sample_heap (Z.shiftr (byte_at s0) 4) 0 0
                                  (advance 1 s0) Hbit eq_refl)
    as (_ & Hrec & _).
  split.
  - apply (Hrec 0 s0 1); [vm_compute; lia | reflexivity | vm_compute; reflexivity].
  - vm_compute. reflexivity.
Defined.

(** C6, as the specification words it, fails: on a file whose header has
    [pointer_size = 0] and whose one record asks for pointer scaling, the
    decoder does not fail with a [DivisionFault]; it runs into the
    division. *)
Lemma C6_counterexample :
  exists h s1,
    read_header (open_file zero_pointer_file) = (Ok h, s1)
    /\ pointer_size h = 0
    /\ Z.land (Z.shiftr (byte_at s1) 4) 8 <> 0
    /\ fst (read_file (heap := sample_heap) (open_file zero_pointer_file))
       = Undefined
    /\ ~ (exists e s',
             read_file (heap := sample_heap) (open_file zero_pointer_file)
             = (Raise e, s')
             /\ kind_of e = Some KDivisionFault).
Proof.
  eexists. eexists.
  split; [vm_compute; reflexivity |].
  split; [reflexivity |].
  split; [vm_compute; discriminate |].
  split; [vm_compute; reflexivity |].
  intros (e & s' & H & _). vm_compute in H. discriminate H.
Qed.

(** C7, as the code has it.  Take a file whose header decodes, whose
    vector of mappings is allocated, whose first [k] records decode and
    whose stream stops inside record [k]: no tag byte is left, or fewer
    bytes follow the tag than the fields it selects take.  Then decoding
    fails with [OutOfBounds], no value is made from bytes that are not
    there, and the run stops with no line written -- unless an earlier step
    of that record comes first: a tag with an id nibble of 8 to 15 throws
    [UnhandledTag], and a tag that asks for scaling with a zero
    [pointer_size], once its id field is read, runs into the division. *)
Theorem C7_truncated_stream (sorter : StdSort) (heap : Allocator)
        (s : span_istream) (a_out : logger) (h : header_t)
        (s1 : span_istream) (k : nat) (ms : list mapping)
        (sk : span_istream) :
  read_header s = (Ok h, s1) ->
  allocated (address_count h) ->
  Z.of_nat k < address_count h ->
  read_mappings k (pointer_size h) 0 0 s1 = (Ok ms, sk) ->
  fields_short sk = true ->
  (unhandled_first sk = false ->
   division_first (pointer_size h) sk = false ->
   exists s',
     read_file s = (Raise OutOfBounds, s')
     /\ kind_of OutOfBounds = Some KOutOfBounds
     /\ dump_mappings s a_out = (Raise OutOfBounds, s', a_out)
     /\ (forall lib, s = open_file lib ->
                     do_main lib = (Raise OutOfBounds, [])))
  /\ (unhandled_first sk = true ->
      read_file s = (Raise (UnhandledTag 123), advance 1 sk)
      /\ dump_mappings s a_out
         = (Raise (UnhandledTag 123), advance 1 sk, a_out))
  /\ (division_first (pointer_size h) sk = true ->
      exists s',
        s' = advance (spec_width (spec_mode (Z.land (byte_at sk) 15)))
                     (advance 1 sk)
        /\ read_file s = (Undefined, s')
        /\ dump_mappings s a_out = (Undefined, s', a_out)).
Proof.
  intros Hh Halloc Hk Hms Hshort.
  pose proof (read_file_allocated _ _ _ Hh Halloc) as Hloop.
  assert (k < Z.to_nat (address_count h))%nat as Hk' by lia.
  split; [| split].
  - intros Hun Hdiv.
    destruct (read_mapping_truncated (pointer_size h)
                (fst (carried ms 0 0)) (snd (carried ms 0 0)) sk
                Hshort Hun Hdiv) as [s' Hfail].
    assert (read_file s = (Raise OutOfBounds, s')) as Hf.
    { rewrite Hloop.
      exact (read_mappings_fail_at k _ _ _ _ _ ms sk _ _ Hk' Hms Hfail). }
    exists s'. split; [exact Hf |]. split; [reflexivity |].
    split; [apply dump_mappings_raise; exact Hf |].
    intros lib ->. unfold do_main.
    rewrite (dump_mappings_raise _ _ _ [] Hf). reflexivity.
  - intros Hun.
    pose proof (read_mapping_unhandled_first (pointer_size h)
                  (fst (carried ms 0 0)) (snd (carried ms 0 0)) sk Hun)
      as Hfail.
    assert (read_file s = (Raise (UnhandledTag 123), advance 1 sk)) as Hf.
    { rewrite Hloop.
      exact (read_mappings_fail_at k _ _ _ _ _ ms sk _ _ Hk' Hms Hfail). }
    split; [exact Hf | apply dump_mappings_raise; exact Hf].
  - intros Hdiv.
    pose proof (read_mapping_division_first (pointer_size h)
                  (fst (carried ms 0 0)) (snd (carried ms 0 0)) sk Hdiv)
      as Hfail.
    eexists. split; [reflexivity |].
    match goal with
    | |- read_file s = (Undefined, ?e) /\ _ =>
        assert (read_file s = (Undefined, e)) as Hf
    end.
    { rewrite Hloop.
      exact (read_mappings_undefined_at k _ _ _ _ _ ms sk _ Hk' Hms Hfail). }
    split; [exact Hf |].
    unfold dump_mappings. rewrite Hf. reflexivity.
Qed.

Lemma C7_witness :
  (fields_short (mk_span_istream truncated_file 36) = true
   /\ exists s',
       read_file (heap := sample_heap) (open_file truncated_file)
       = (Raise OutOfBounds, s')
       /\ do_main (sorter := stable_sorter) (heap := sample_heap)
                  truncated_file
          = (Raise OutOfBounds, []))
  /\ (fields_short (mk_span_istream truncated_scaled_file 35) = true
      /\ exists s',
          read_file (heap := sample_heap) (open_file truncated_scaled_file)
          = (Raise OutOfBounds, s')).
Proof.
  assert (forall count, 0 <= count <= 2 ^ 30 ->
                        allocated (heap := sample_heap) count) as Halloc.
  { intros count Hc. split; [cbn; lia |]. cbn. apply Z.leb_le. lia. }
  split.
  - assert (fields_short (mk_span_istream truncated_file 36) = true) as Hshort
        by (vm_compute; reflexivity).
    split; [exact Hshort |].
    destruct (C7_truncated_stream stable_sorter sample_heap
                (open_file truncated_file) []
                (mk_header 1 [1; 5; 97; 0] 8 2)
                (mk_span_istream truncated_file 35) 1
                [(1, 1)] (mk_span_istream truncated_file 36))
      as (Hout & _).
    + vm_compute. reflexivity.
    + apply Halloc. cbn. lia.
    + cbn. lia.
    + vm_compute. reflexivity.
    + exact Hshort.
    + destruct Hout as (s' & Hf & _ & _ & Hmain);
        [vm_compute; reflexivity | vm_compute; reflexivity |].
      exists s'. split; [exact Hf |]. apply Hmain. reflexivity.
  - assert (fields_short (mk_span_istream truncated_scaled_file 35) = true)
      as Hshort by (vm_compute; reflexivity).
    split; [exact Hshort |].
    destruct (C7_truncated_stream stable_sorter sample_heap
                (open_file truncated_scaled_file) []
                (mk_header 1 [1; 5; 97; 0] 0 1)
                (mk_span_istream truncated_scaled_file 35) 0
                [] (mk_span_istream truncated_scaled_file 35))
      as (Hout & _).
    + vm_compute. reflexivity.
    + apply Halloc. cbn. lia.
    + cbn. lia.
    + vm_compute. reflexivity.
    + exact Hshort.
    + destruct Hout as (s' & Hf & _);
        [vm_compute; reflexivity | vm_compute; reflexivity |].
      exists s'. exact Hf.
Defined.

(** C7, as the specification words it, fails in three ways.  A stream that
    stops behind the tag 0x08 lacks the eight bytes of the offset field this
    tag selects, yet the decoder fails with [UnhandledTag]: the id nibble is
    looked at first.  With [pointer_size = 0] a stream that stops behind the
    tag 0xA1 lacks the byte of its offset field, yet the decoder runs into
    the division before it reads.  And a header that announces 2^31 - 1
    records with no byte behind it fails with the vector's [BadAlloc] on a
    heap with room for 2^30 pairs, before a record is looked at. *)
Lemma C7_counterexample :
  (exists h s1,
      read_header (open_file truncated_unhandled_file) = (Ok h, s1)
      /\ address_count h = 1
      /\ fields_short s1 = true
      /\ read_file (heap := sample_heap) (open_file truncated_unhandled_file)
         = (Raise (UnhandledTag 123), advance 1 s1)
      /\ fst (read_file (heap := sample_heap)
                        (open_file truncated_unhandled_file))
         <> Raise OutOfBounds)
  /\ (exists h s1,
         read_header (open_file truncated_zero_pointer_file) = (Ok h, s1)
         /\ address_count h = 1
         /\ fields_short s1 = true
         /\ read_file (heap := sample_heap)
                      (open_file truncated_zero_pointer_file)
            = (Undefined, advance 1 s1)
         /\ fst (read_file (heap := sample_heap)
                           (open_file truncated_zero_pointer_file))
            <> Raise OutOfBounds)
  /\ (exists h s1,
         read_header (open_file huge_count_file) = (Ok h, s1)
         /\ address_count h = 2 ^ 31 - 1
         /\ fields_short s1 = true
         /\ read_file (heap := sample_heap) (open_file huge_count_file)
            = (Raise BadAlloc, s1)
         /\ fst (read_file (heap := sample_heap) (open_file huge_count_file))
            <> Raise OutOfBounds).
Proof.
  split; [| split]; eexists; eexists;
    (split; [vm_compute; reflexivity |]);
    (split; [reflexivity |]);
    (split; [vm_compute; reflexivity |]);
    (split; [vm_compute; reflexivity |]);
    vm_compute; discriminate.
Qed.

(** C8. A file whose first 32-bit little-endian integer is neither 1 nor 2
    (99, say) makes the header decoder fail with [InvalidFormat]; the
    stream then stands at byte 4, just behind the format field, so that no
    byte of a record has been taken, and nothing is written. *)
Theorem C8_invalid_format (sorter : StdSort) (heap : Allocator)
        (lib : list byte) (a_out : logger) :
  (4 <= length lib)%nat ->
  let format := to_int32 (from_le (firstn 4 lib)) in
  format <> 1 -> format <> 2 ->
  read_header (open_file lib)
  = (Raise (InvalidFormat format), mk_span_istream lib 4)
  /\ kind_of (InvalidFormat format) = Some KInvalidFormat
  /\ read_file (open_file lib)
     = (Raise (InvalidFormat format), mk_span_istream lib 4)
  /\ dump_mappings (open_file lib) a_out
     = (Raise (InvalidFormat format), mk_span_istream lib 4, a_out).
Proof.
  intros Hlen format H1 H2.
  assert (read_header (open_file lib)
          = (Raise (InvalidFormat format), mk_span_istream lib 4)) as Hh.
  { apply (read_header_invalid (open_file lib)); assumption. }
  split; [exact Hh |]. split; [reflexivity |].
  pose proof (read_file_header_raise _ _ _ Hh) as Hf.
  split; [exact Hf |].
  apply dump_mappings_raise. exact Hf.
Qed.

Lemma C8_witness :
  to_int32 (from_le (firstn 4 bad_format_file)) = 99
  /\ read_file (heap := sample_heap) (open_file bad_format_file)
     = (Raise (InvalidFormat 99), mk_span_istream bad_format_file 4)
  /\ dump_mappings (sorter := stable_sorter) (heap := sample_heap)
                   (open_file bad_format_file) []
     = (Raise (InvalidFormat 99), mk_span_istream bad_format_file 4, []).
Proof.
  split; [vm_compute; reflexivity |].
  assert (4 <= length bad_format_file)%nat as Hlen by (vm_compute; lia).
  assert (to_int32 (from_le (firstn 4 bad_format_file)) <> 1) as H1
      by (vm_compute; discriminate).
  assert (to_int32 (from_le (firstn 4 bad_format_file)) <> 2) as H2
      by (vm_compute; discriminate).
  destruct (C8_invalid_format stable_sorter sample_heap bad_format_file []
                              Hlen H1 H2)
    as (_ & _ & Hf & Hd).
  split; [exact Hf | exact Hd].
Defined.

(** C9, as the code has it.  Every run that comes to its end leaves a
    failure status, a run that decoded and wrote everything included; when
    an exception is thrown -- while decoding, or for a wrong number of
    arguments -- its message is printed on standard output, followed by a
    newline.  The messages made by [raise_error] (invalid format, unhandled
    tag, wrong number of arguments) begin with the file name and the line
    of the call; the exceptions of the libraries (the cursor's
    [OutOfBounds], the vector's [LengthError] and [BadAlloc]) are printed
    with the text the library gave them and nothing in front.  The only
    runs with no end to speak of are those that reach the division by a
    zero [pointer_size]. *)
Theorem C9_exit_status (sorter : StdSort) (heap : Allocator)
        (env : environment) (a_argc : Z) (lib : list byte) :
  EXIT_FAILURE <> 0
  /\ (forall p, wmain env a_argc lib = Some p -> exit_status p = EXIT_FAILURE)
  /\ (forall out,
         a_argc = 2 -> do_main lib = (Ok tt, out) ->
         wmain env a_argc lib
         = Some (mk_process EmptyString (Some out) EXIT_FAILURE))
  /\ (forall e out,
         a_argc = 2 -> do_main lib = (Raise e, out) ->
         wmain env a_argc lib
         = Some (mk_process (what env e ++ String newline EmptyString)
                            (Some out) EXIT_FAILURE))
  /\ (a_argc <> 2 ->
      wmain env a_argc lib
      = Some (mk_process
                (what env (BadArguments (a_argc - 1)) ++ String newline EmptyString)
                None EXIT_FAILURE))
  /\ (wmain env a_argc lib = None
      <-> a_argc = 2 /\ fst (do_main lib) = Undefined)
  /\ (forall e line,
         raise_error_line e = Some line ->
         located env (what env e)
         /\ exists text,
             what env e
             = (file_name env ++ "(" ++ to_string line ++ "): " ++ text)%string)
  /\ (forall e out,
         a_argc = 2 -> do_main lib = (Raise e, out) ->
         raise_error_line e = None ->
         exists text,
           (e = OutOfBounds /\ text = what_out_of_bounds env
            \/ e = LengthError /\ text = what_length_error env
            \/ e = BadAlloc /\ text = what_bad_alloc env)
           /\ wmain env a_argc lib
              = Some (mk_process (text ++ String newline EmptyString)
                                 (Some out) EXIT_FAILURE)).
Proof.
  split; [discriminate |].
  split.
  { intros p. unfold wmain.
    destruct (a_argc =? 2); [| intros H; inversion H; reflexivity].
    destruct (do_main lib) as [[[] | e |] out]; intros H; inversion H; reflexivity. }
  split.
  { intros out -> H. unfold wmain. rewrite H. reflexivity. }
  split.
  { intros e out -> H. unfold wmain. rewrite H. reflexivity. }
  split.
  { intros Hargc. unfold wmain. apply Z.eqb_neq in Hargc. rewrite Hargc.
    reflexivity. }
  split.
  { unfold wmain. destruct (Z.eqb_spec a_argc 2) as [-> | Hne].
    - destruct (do_main lib) as [[[] | e |] out]; cbn [fst]; split;
        try discriminate; try (intros [_ H]; discriminate H); auto.
    - split; [discriminate | intros [H _]; contradiction]. }
  split.
  { intros e line Hline.
    destruct e; inversion Hline; subst;
      (split; [eexists; eexists; reflexivity | eexists; reflexivity]). }
  intros e out -> H Hline. unfold wmain. rewrite H. cbn [Z.eqb Pos.eqb].
  destruct e; try discriminate Hline; eexists; (split; [| reflexivity]); auto.
Qed.

Lemma C9_witness :
  wmain (sorter := stable_sorter) (heap := sample_heap) sample_env 2 sample_file
  = Some (mk_process EmptyString
            (Some [("296" ++ String tab "0001008")%string;
                   ("300" ++ String tab "0001000")%string;
                   ("300" ++ String tab "12345678")%string;
                   ("301" ++ String tab "0001001")%string])
            EXIT_FAILURE)
  /\ wmain (sorter := stable_sorter) (heap := sample_heap)
           sample_env 2 bad_format_file
     = Some (mk_process
               ("src/main.cpp(68): invalid header version (99)"
                ++ String newline EmptyString)
               (Some []) EXIT_FAILURE)
  /\ wmain (sorter := stable_sorter) (heap := sample_heap) sample_env 1 []
     = Some (mk_process
               ("src/main.cpp(209): expected only 1 argument (the file path): got 0"
                ++ String newline EmptyString)
               None EXIT_FAILURE)
  /\ located sample_env (what sample_env (InvalidFormat 99))
  /\ wmain (sorter := stable_sorter) (heap := sample_heap)
           sample_env 2 truncated_file
     = Some (mk_process
               ("input buffer has been exhausted" ++ String newline EmptyString)
               (Some []) EXIT_FAILURE).
Proof.
  split; [| split; [| split; [| split]]].
  - destruct (C9_exit_status stable_sorter sample_heap sample_env 2 sample_file)
      as (_ & _ & Hok & _).
    apply Hok; [reflexivity | vm_compute; reflexivity].
  - destruct (C9_exit_status stable_sorter sample_heap sample_env 2
                             bad_format_file)
      as (_ & _ & _ & Hraise & _).
    rewrite (Hraise (InvalidFormat 99) []); [| reflexivity | vm_compute; reflexivity].
    vm_compute. reflexivity.
  - destruct (C9_exit_status stable_sorter sample_heap sample_env 1 [])
      as (_ & _ & _ & _ & Hargs & _).
    rewrite Hargs by discriminate. vm_compute. reflexivity.
  - destruct (C9_exit_status stable_sorter sample_heap sample_env 2
                             bad_format_file)
      as (_ & _ & _ & _ & _ & _ & Hloc & _).
    destruct (Hloc (InvalidFormat 99) 68 eq_refl) as [H _]. exact H.
  - destruct (C9_exit_status stable_sorter sample_heap sample_env 2
                             truncated_file)
      as (_ & _ & _ & _ & _ & _ & _ & Hlib).
    destruct (Hlib OutOfBounds [] eq_refl) as (text & Hcase & Hrun);
      [vm_compute; reflexivity | reflexivity |].
    rewrite Hrun.
    destruct Hcase as [[_ ->] | [[He _] | [He _]]];
      [reflexivity | discriminate He | discriminate He].
Defined.

(** C9, as the specification words it, fails on a truncated file.  The
    cursor's exception is not made by [raise_error]: the run prints the
    library's text and a newline, and that text does not begin with a file
    name and a line. *)
Lemma C9_counterexample :
  do_main (sorter := stable_sorter) (heap := sample_heap) truncated_file
  = (Raise OutOfBounds, [])
  /\ wmain (sorter := stable_sorter) (heap := sample_heap)
           sample_env 2 truncated_file
     = Some (mk_process
               (what sample_env OutOfBounds ++ String newline EmptyString)
               (Some []) EXIT_FAILURE)
  /\ what sample_env OutOfBounds = "input buffer has been exhausted"%string
  /\ raise_error_line OutOfBounds = None
  /\ ~ located sample_env (what sample_env OutOfBounds).
Proof.
  split; [vm_compute; reflexivity |].
  split; [vm_compute; reflexivity |].
  split; [reflexivity |].
  split; [reflexivity |].
  intros (line & text & H). cbn in H. discriminate H.
Qed.

(** C10. The sub-mode [hi & 7] of the offset always lies in 0 to 7, so the
    failure branch of the second switch (main.cpp:154) is never taken: the
    offset part of a record throws nothing but the cursor's [OutOfBounds].
    An [UnhandledTag] comes from the first switch (main.cpp:123) alone, and
    exactly when the low nibble [tag & 0xF] of the tag byte is 8 to 15;
    this holds for one record and for a whole file. *)
Theorem C10_unhandled_tag_only_from_id (heap : Allocator) (hi : Z) :
  0 <= Z.land hi 7 <= 7
  /\ spec_mode (Z.land hi 7) <> Unhandled
  /\ (forall pointer_size prevOffset s e s',
         read_offset hi pointer_size prevOffset s = (Raise e, s') ->
         e = OutOfBounds)
  /\ (forall pointer_size prevID prevOffset s line s',
         read_mapping pointer_size prevID prevOffset s
         = (Raise (UnhandledTag line), s')
         <-> ((pos s < length (buffer s))%nat
              /\ 8 <= Z.land (byte_at s) 15 <= 15
              /\ line = 123%nat /\ s' = advance 1 s))
  /\ (forall s line s',
         read_file s = (Raise (UnhandledTag line), s') ->
         line = 123%nat
         /\ exists s1, s' = advance 1 s1
                       /\ (pos s1 < length (buffer s1))%nat
                       /\ 8 <= Z.land (byte_at s1) 15 <= 15).
Proof.
  split; [apply sub_mode_range |].
  split; [apply sub_mode_handled |].
  split.
  { intros pointer_size prevOffset s e s' H.
    apply read_offset_raise in H. tauto. }
  split; [intros; apply read_mapping_unhandled |].
  intros s line s' H. unfold read_file in H.
  apply bind_raise_inv in H. destruct H as [H | (h & s1 & _ & H)].
  { apply read_header_raises in H.
    destruct H as [H | [f H]]; discriminate H. }
  apply bind_raise_inv in H. destruct H as [H | (n & s2 & _ & H)].
  { unfold vector_of_size in H.
    destruct ((address_count h <? 0) || (max_size <? address_count h));
      [inversion H |].
    destruct (can_allocate (address_count h)); inversion H. }
  apply read_mappings_raise_inv in H.
  destruct H as (prevID & prevOffset & s3 & H).
  apply read_mapping_unhandled in H.
  destruct H as (Hlen & Hlo & Hline & Hs').
  split; [exact Hline |]. exists s3. auto.
Qed.

Lemma C10_witness :
  let s := mk_span_istream truncated_unhandled_file 35 in
  read_mapping 8 0 0 s = (Raise (UnhandledTag 123), advance 1 s)
  /\ 8 <= Z.land (byte_at s) 15 <= 15.
Proof.
  intros s.
  assert (read_mapping 8 0 0 s = (Raise (UnhandledTag 123), advance 1 s)) as H
      by (vm_compute; reflexivity).
  split; [exact H |].
  destruct (C10_unhandled_tag_only_from_id sample_heap 0)
    as (_ & _ & _ & Hrec & _).
  apply Hrec in H. destruct H as (_ & Hlo & _). exact Hlo.
Defined.

(** * Further properties *)

(** ** Encoding and decoding of integers *)

Lemma to_le_length (w : nat) (v : Z) : length (to_le w v) = w.
Proof.
  revert v. induction w as [| w IH]; intros v; cbn; [reflexivity |].
  now rewrite IH.
Qed.

Lemma byte_of_Z_value (z : Z) : Z.of_N (Byte.to_N (byte_of_Z z)) = z mod 256.
Proof.
  unfold byte_of_Z.
  pose proof (Z.mod_pos_bound z 256 ltac:(lia)) as Hr.
  pose proof (Byte.to_of_N_option_map (Z.to_N (z mod 256))) as H.
  destruct (N.leb_spec (Z.to_N (z mod 256)) 255) as [_ | Hgt]; [| lia].
  destruct (Byte.of_N (Z.to_N (z mod 256))) as [b |]; [| discriminate H].
  cbn in H. inversion H as [Hb]. rewrite Hb. lia.
Qed.

Lemma from_le_to_le (w : nat) (v : Z) :
  from_le (to_le w v) = v mod 256 ^ Z.of_nat w.
Proof.
  revert v. induction w as [| w IH]; intros v.
  - cbn. rewrite Z.mod_1_r. reflexivity.
  - cbn [to_le from_le]. rewrite byte_of_Z_value, IH.
    rewrite Nat2Z.inj_succ, Z.pow_succ_r by lia.
    rewrite Z.rem_mul_r; [reflexivity | lia |].
    apply Z.pow_pos_nonneg; lia.
Qed.

Lemma from_le_to_le_int32 (v : Z) :
  int32 v -> to_int32 (from_le (to_le 4 v)) = v.
Proof.
  unfold int32. intros Hv. rewrite from_le_to_le.
  change (256 ^ Z.of_nat 4) with (2 ^ 32). unfold to_int32.
  destruct (Z.le_gt_cases 0 v) as [Hpos | Hneg].
  - rewrite Z.mod_small by lia.
    destruct (Z.ltb_spec v (2 ^ 31)); lia.
  - assert (v mod 2 ^ 32 = v + 2 ^ 32) as ->.
    { symmetry. apply Z.mod_unique with (q := -1); lia. }
    destruct (Z.ltb_spec (v + 2 ^ 32) (2 ^ 31)); lia.
Qed.

Lemma from_le_to_le_u64 (v : Z) :
  0 <= v < 2 ^ 64 -> from_le (to_le 8 v) = v.
Proof.
  intros Hv. rewrite from_le_to_le.
  change (256 ^ Z.of_nat 8) with (2 ^ 64). apply Z.mod_small. exact Hv.
Qed.

(** ** Reading what lies behind the cursor *)

Lemma remaining_length (s : span_istream) :
  length (remaining s) = (length (buffer s) - pos s)%nat.
Proof. unfold remaining. apply length_skipn. Qed.

Lemma remaining_advance (n : nat) (s : span_istream) :
  remaining (advance n s) = skipn n (remaining s).
Proof.
  unfold remaining, advance. cbn [buffer pos].
  rewrite skipn_skipn. f_equal. lia.
Qed.

(** When the bytes [bs] are next, reading [length bs] bytes gives them and
    leaves the cursor on what follows. *)
Lemma read_bytes_prefix (s : span_istream) (bs rest : list byte) :
  in_bounds s ->
  remaining s = bs ++ rest ->
  read_bytes (length bs) s = (Ok bs, advance (length bs) s)
  /\ in_bounds (advance (length bs) s)
  /\ remaining (advance (length bs) s) = rest.
Proof.
  unfold in_bounds. intros Hin Hrem.
  pose proof (remaining_length s) as Hlen.
  rewrite Hrem, length_app in Hlen.
  split; [| split].
  - rewrite read_bytes_enough by lia. fold (advance (length bs) s).
    rewrite Hrem, firstn_app, firstn_all, Nat.sub_diag. cbn [firstn].
    rewrite app_nil_r. reflexivity.
  - cbn [advance pos buffer]. lia.
  - rewrite remaining_advance, Hrem, skipn_app, skipn_all, Nat.sub_diag.
    reflexivity.
Qed.

Lemma read_int32_prefix (s : span_istream) (v : Z) (rest : list byte) :
  in_bounds s -> int32 v ->
  remaining s = to_le 4 v ++ rest ->
  read_int32 s = (Ok v, advance 4 s)
  /\ in_bounds (advance 4 s)
  /\ remaining (advance 4 s) = rest.
Proof.
  intros Hin Hv Hrem.
  destruct (read_bytes_prefix s (to_le 4 v) rest Hin Hrem) as (Hr & Hin' & Hrem').
  rewrite to_le_length in *.
  split; [| split; assumption].
  unfold read_int32. rewrite (bind_ok _ _ _ _ _ Hr). unfold ret.
  rewrite from_le_to_le_int32 by exact Hv. reflexivity.
Qed.

Lemma read_uint64_prefix (s : span_istream) (v : Z) (rest : list byte) :
  in_bounds s -> 0 <= v < 2 ^ 64 ->
  remaining s = to_le 8 v ++ rest ->
  read_uint64 s = (Ok v, advance 8 s)
  /\ in_bounds (advance 8 s)
  /\ remaining (advance 8 s) = rest.
Proof.
  intros Hin Hv Hrem.
  destruct (read_bytes_prefix s (to_le 8 v) rest Hin Hrem) as (Hr & Hin' & Hrem').
  rewrite to_le_length in *.
  split; [| split; assumption].
  unfold read_uint64. rewrite (bind_ok _ _ _ _ _ Hr). unfold ret.
  rewrite from_le_to_le_u64 by exact Hv. reflexivity.
Qed.

Lemma advance_advance (a b : nat) (s : span_istream) :
  advance a (advance b s) = advance (b + a) s.
Proof. unfold advance. cbn [buffer pos]. f_equal. lia. Qed.

Lemma seek_relative_prefix (s : span_istream) (bs rest : list byte) :
  in_bounds s ->
  remaining s = bs ++ rest ->
  seek_relative (Z.of_nat (length bs)) s = (Ok tt, advance (length bs) s)
  /\ in_bounds (advance (length bs) s)
  /\ remaining (advance (length bs) s) = rest.
Proof.
  unfold in_bounds. intros Hin Hrem.
  pose proof (remaining_length s) as Hlen.
  rewrite Hrem, length_app in Hlen.
  split; [| split].
  - unfold seek_relative.
    destruct (Z.leb_spec 0 (Z.of_nat (pos s) + Z.of_nat (length bs))); [| lia].
    destruct (Z.leb_spec (Z.of_nat (pos s) + Z.of_nat (length bs))
                         (Z.of_nat (length (buffer s)))); [| lia].
    cbn [andb]. unfold advance. repeat f_equal. lia.
  - cbn [advance pos buffer]. lia.
  - rewrite remaining_advance, Hrem, skipn_app, skipn_all, Nat.sub_diag.
    reflexivity.
Qed.

Lemma firstn_to_le (w : nat) (v : Z) (rest : list byte) :
  firstn w (to_le w v ++ rest) = to_le w v.
Proof.
  rewrite firstn_app, to_le_length, Nat.sub_diag. cbn [firstn].
  rewrite app_nil_r. rewrite <- (to_le_length w v) at 1. apply firstn_all.
Qed.

Lemma skipn_to_le (w : nat) (v : Z) (rest : list byte) :
  skipn w (to_le w v ++ rest) = rest.
Proof.
  rewrite skipn_app, to_le_length, Nat.sub_diag. cbn [skipn].
  rewrite <- (to_le_length w v) at 1. rewrite skipn_all. reflexivity.
Qed.

Lemma split_int32_concat (vs : list Z) :
  Forall int32 vs ->
  split_int32 (length vs) (concat (map (to_le 4) vs)) = vs.
Proof.
  induction 1 as [| v vs Hv _ IH]; [reflexivity |].
  cbn [length split_int32 map concat].
  rewrite firstn_to_le, skipn_to_le, from_le_to_le_int32, IH by exact Hv.
  reflexivity.
Qed.

Lemma concat_to_le_length (vs : list Z) :
  length (concat (map (to_le 4) vs)) = (4 * length vs)%nat.
Proof.
  induction vs as [| v vs IH]; [reflexivity |].
  cbn [map concat length]. rewrite length_app, to_le_length, IH. lia.
Qed.

Lemma read_int32s_prefix (s : span_istream) (vs : list Z) (rest : list byte) :
  in_bounds s -> Forall int32 vs ->
  remaining s = concat (map (to_le 4) vs) ++ rest ->
  read_int32s (length vs) s = (Ok vs, advance (4 * length vs) s)
  /\ in_bounds (advance (4 * length vs) s)
  /\ remaining (advance (4 * length vs) s) = rest.
Proof.
  intros Hin Hvs Hrem.
  destruct (read_bytes_prefix s _ rest Hin Hrem) as (Hr & Hin' & Hrem').
  rewrite concat_to_le_length in *.
  split; [| split; assumption].
  unfold read_int32s. rewrite (bind_ok _ _ _ _ _ Hr). unfold ret.
  rewrite split_int32_concat by exact Hvs. reflexivity.
Qed.

Lemma header_bytes_length (h : header_t) (name : list byte) :
  length (version h) = 4%nat ->
  length (header_bytes h name) = (32 + length name)%nat.
Proof.
  intros Hv. unfold header_bytes.
  rewrite !length_app, !to_le_length, concat_to_le_length, Hv. lia.
Qed.

(** The header decoder on the bytes of a valid header. *)
Lemma read_header_bytes (s : span_istream) (h : header_t)
      (name rest : list byte) :
  in_bounds s -> valid_header h -> Z.of_nat (length name) < 2 ^ 31 ->
  remaining s = header_bytes h name ++ rest ->
  read_header s = (Ok h, advance (32 + length name) s)
  /\ in_bounds (advance (32 + length name) s)
  /\ remaining (advance (32 + length name) s) = rest.
Proof.
  intros Hin (Hfmt & Hvlen & Hvs & Hps & Hcount) Hname Hrem.
  destruct h as [fmt vs ps count]. cbn [format version pointer_size address_count] in *.
  unfold header_bytes in Hrem.
  cbn [format version pointer_size address_count] in Hrem.
  rewrite <- !app_assoc in Hrem.
  assert (int32 fmt) as Hfmt32 by (unfold int32; lia).
  destruct (read_int32_prefix s fmt _ Hin Hfmt32 Hrem) as (H1 & Hin1 & Hrem1).
  destruct (read_int32s_prefix _ vs _ Hin1 Hvs Hrem1) as (H2 & Hin2 & Hrem2).
  rewrite Hvlen in H2, Hin2, Hrem2.
  assert (int32 (Z.of_nat (length name))) as Hn32 by (unfold int32; lia).
  destruct (read_int32_prefix _ _ _ Hin2 Hn32 Hrem2) as (H3 & Hin3 & Hrem3).
  destruct (seek_relative_prefix _ _ _ Hin3 Hrem3) as (H4 & Hin4 & Hrem4).
  assert (Forall int32 [ps; count]) as Hpc
      by (constructor; [exact Hps | constructor; [exact Hcount | constructor]]).
  assert (to_le 4 ps ++ to_le 4 count ++ rest
          = concat (map (to_le 4) [ps; count]) ++ rest) as Heq.
  { cbn [map concat]. rewrite app_nil_r, <- app_assoc. reflexivity. }
  rewrite Heq in Hrem4.
  destruct (read_int32s_prefix _ _ _ Hin4 Hpc Hrem4) as (H5 & Hin5 & Hrem5).
  cbn [length] in H5, Hin5, Hrem5.
  assert (advance (4 * 2)
            (advance (length name) (advance 4 (advance (4 * 4) (advance 4 s))))
          = advance (32 + length name) s) as Hend.
  { rewrite !advance_advance. f_equal. lia. }
  rewrite Hend in H5, Hin5, Hrem5.
  split; [| split; assumption].
  unfold read_header.
  rewrite (bind_ok _ _ _ _ _ H1).
  assert ((match fmt with
           | 1 | 2 => ret tt
           | _ => raise (InvalidFormat fmt)
           end) (advance 4 s) = (Ok tt, advance 4 s)) as Hm
      by (destruct Hfmt as [-> | ->]; reflexivity).
  rewrite (bind_ok _ _ _ _ _ Hm).
  rewrite (bind_ok _ _ _ _ _ H2).
  rewrite (bind_ok _ _ _ _ _ H3).
  rewrite (bind_ok _ _ _ _ _ H4).
  rewrite (bind_ok _ _ _ _ _ H5).
  reflexivity.
Qed.

(** ** Records in the absolute modes *)

Lemma read_offset_absolute (pointer_size prevOffset : Z) (s : span_istream) :
  read_offset 0 pointer_size prevOffset s = read_uint64 s.
Proof.
  rewrite read_offset_unscaled by reflexivity.
  rewrite <- read_offset_mode_spec. reflexivity.
Qed.

Lemma in_bounds_nonempty (s : span_istream) (b : byte) (rest : list byte) :
  remaining s = b :: rest -> (pos s < length (buffer s))%nat.
Proof.
  intros Hrem. pose proof (remaining_length s) as Hlen.
  rewrite Hrem in Hlen. cbn [length] in Hlen. lia.
Qed.

Lemma byte_at_head (s : span_istream) (b : byte) (rest : list byte) :
  remaining s = b :: rest -> byte_at s = Z.of_N (Byte.to_N b).
Proof. intros Hrem. unfold byte_at. rewrite Hrem. cbn. lia. Qed.

Lemma read_mapping_absolute (pointer_size prevID prevOffset : Z)
      (s : span_istream) (m : mapping) (rest : list byte) :
  in_bounds s -> in_range m ->
  remaining s = absolute_record m ++ rest ->
  read_mapping pointer_size prevID prevOffset s = (Ok m, advance 17 s)
  /\ in_bounds (advance 17 s)
  /\ remaining (advance 17 s) = rest.
Proof.
  intros Hin [Hid Hoff] Hrem. unfold absolute_record in Hrem.
  cbn [app] in Hrem. rewrite <- app_assoc in Hrem.
  pose proof (in_bounds_nonempty _ _ _ Hrem) as Htag.
  pose proof (byte_at_head _ _ _ Hrem) as Hbyte.
  rewrite byte_of_Z_value in Hbyte. change (0 mod 256) with 0 in Hbyte.
  assert (in_bounds (advance 1 s)) as Hin1
      by (unfold in_bounds in *; cbn [advance pos buffer]; lia).
  assert (remaining (advance 1 s) = to_le 8 (fst m) ++ to_le 8 (snd m) ++ rest)
    as Hrem1 by (rewrite remaining_advance, Hrem; reflexivity).
  destruct (read_uint64_prefix _ _ _ Hin1 Hid Hrem1) as (H1 & Hin2 & Hrem2).
  destruct (read_uint64_prefix _ _ _ Hin2 Hoff Hrem2) as (H2 & Hin3 & Hrem3).
  rewrite !advance_advance in *. change (1 + 8 + 8)%nat with 17%nat in *.
  split; [| split; assumption].
  rewrite read_mapping_tag by exact Htag. rewrite Hbyte.
  change (Z.land 0 15) with 0. change (Z.shiftr 0 4) with 0.
  change (read_id 0 prevID) with read_uint64.
  rewrite (bind_ok _ _ _ _ _ H1).
  assert (read_offset 0 pointer_size prevOffset (advance (1 + 8) s)
          = (Ok (snd m), advance 17 s)) as Hoff'
      by (rewrite read_offset_absolute; exact H2).
  rewrite (bind_ok _ _ _ _ _ Hoff'). unfold ret.
  rewrite <- surjective_pairing. reflexivity.
Qed.

Lemma read_mappings_absolute (pointer_size : Z) (ms : list mapping) :
  forall (prevID prevOffset : Z) (s : span_istream) (rest : list byte),
    in_bounds s -> Forall in_range ms ->
    remaining s = concat (map absolute_record ms) ++ rest ->
    read_mappings (length ms) pointer_size prevID prevOffset s
    = (Ok ms, advance (17 * length ms) s)
    /\ in_bounds (advance (17 * length ms) s)
    /\ remaining (advance (17 * length ms) s) = rest.
Proof.
  induction ms as [| m ms IH]; intros prevID prevOffset s rest Hin Hms Hrem.
  - cbn [length map concat app read_mappings] in *.
    change (17 * 0)%nat with 0%nat. rewrite advance_0. unfold ret. auto.
  - inversion Hms as [| ? ? Hm Hms']; subst.
    cbn [map concat] in Hrem. rewrite <- app_assoc in Hrem.
    destruct (read_mapping_absolute pointer_size prevID prevOffset _ _ _
                Hin Hm Hrem) as (H1 & Hin1 & Hrem1).
    destruct (IH (fst m) (snd m) _ _ Hin1 Hms' Hrem1) as (H2 & Hin2 & Hrem2).
    rewrite advance_advance in H2, Hin2, Hrem2.
    replace (17 + 17 * length ms)%nat with (17 * length (m :: ms))%nat
      in H2, Hin2, Hrem2 by (cbn [length]; lia).
    split; [| split; assumption].
    cbn [length read_mappings].
    rewrite (bind_ok _ _ _ _ _ H1), (bind_ok _ _ _ _ _ H2). reflexivity.
Qed.

Lemma open_file_in_bounds (lib : list byte) : in_bounds (open_file lib).
Proof. unfold in_bounds, open_file. cbn. lia. Qed.

Lemma absolute_records_length (ms : list mapping) :
  length (concat (map absolute_record ms)) = (17 * length ms)%nat.
Proof.
  induction ms as [| m ms IH]; [reflexivity |].
  cbn [map concat length]. rewrite length_app, IH.
  unfold absolute_record. cbn [length]. rewrite length_app, !to_le_length. lia.
Qed.

(** X1. A file made of a valid header that announces [length ms] records
    and of these records in the absolute modes (tag 0x00, 64-bit id, 64-bit
    offset) decodes, once the vector of that many mappings is allocated, to
    exactly the mappings [ms], in their order; the cursor ends right behind
    the last record, and bytes after it are not looked at. *)
Theorem X1_absolute_round_trip (heap : Allocator) (h : header_t)
        (name : list byte) (ms : list mapping) (rest : list byte) :
  valid_header h ->
  Z.of_nat (length name) < 2 ^ 31 ->
  address_count h = Z.of_nat (length ms) ->
  allocated (address_count h) ->
  Forall in_range ms ->
  read_file (open_file (absolute_file h name ms ++ rest))
  = (Ok ms,
     mk_span_istream (absolute_file h name ms ++ rest)
                     (length (absolute_file h name ms))).
Proof.
  intros Hvalid Hname Hcount Halloc Hms.
  set (file := absolute_file h name ms ++ rest).
  assert (remaining (open_file file)
          = header_bytes h name ++ concat (map absolute_record ms) ++ rest)
    as Hrem by (unfold file, absolute_file; rewrite <- app_assoc; reflexivity).
  destruct (read_header_bytes _ _ _ _ (open_file_in_bounds file) Hvalid Hname Hrem)
    as (Hh & Hin1 & Hrem1).
  rewrite (read_file_allocated _ _ _ Hh Halloc), Hcount, Nat2Z.id.
  destruct (read_mappings_absolute (pointer_size h) ms 0 0 _ _ Hin1 Hms Hrem1)
    as (Hr & _ & _).
  rewrite Hr. f_equal.
  rewrite advance_advance. unfold advance, open_file. cbn [buffer pos].
  f_equal. unfold absolute_file.
  destruct Hvalid as (_ & Hvlen & _).
  rewrite length_app, (header_bytes_length h name Hvlen), absolute_records_length.
  lia.
Qed.

Lemma X1_witness :
  let h := mk_header 2 [1; 6; 1170; 0] 8 2 in
  let ms := [(17, 4096); (5, 0)] in
  read_file (heap := sample_heap)
            (open_file (absolute_file h (map byte_of_Z [97; 98]) ms))
  = (Ok ms, mk_span_istream (absolute_file h (map byte_of_Z [97; 98]) ms) 68).
Proof.
  intros h ms.
  assert (valid_header h) as Hvalid.
  { unfold valid_header, h, int32. cbn.
    repeat split; try lia; auto.
    repeat constructor; cbn; lia. }
  pose proof (X1_absolute_round_trip sample_heap h (map byte_of_Z [97; 98])
                                     ms []) as H.
  rewrite app_nil_r in H. apply H.
  - exact Hvalid.
  - cbn. lia.
  - reflexivity.
  - split; [cbn; lia | reflexivity].
  - unfold ms, in_range. repeat constructor; cbn; lia.
Defined.

(** X2. The header decoder gives back exactly the format, the four version
    numbers, the pointer size and the record count a valid header was
    stored with, whatever the bytes of its name are, and leaves the cursor
    32 bytes plus the length of the name further, on the first record. *)
Theorem X2_header_round_trip (h : header_t) (name rest : list byte) :
  valid_header h ->
  Z.of_nat (length name) < 2 ^ 31 ->
  let file := header_bytes h name ++ rest in
  read_header (open_file file)
  = (Ok h, mk_span_istream file (32 + length name))
  /\ remaining (mk_span_istream file (32 + length name)) = rest.
Proof.
  intros Hvalid Hname file.
  destruct (read_header_bytes (open_file file) h name rest
              (open_file_in_bounds file) Hvalid Hname eq_refl)
    as (Hh & _ & Hrem).
  split.
  - rewrite Hh. reflexivity.
  - exact Hrem.
Qed.

Lemma X2_witness :
  let h := mk_header 1 [1; 5; 97; 0] 8 4 in
  header_bytes h (map byte_of_Z [97; 98; 99]) = sample_header 8 4
  /\ read_header (open_file sample_file) = (Ok h, mk_span_istream sample_file 35).
Proof.
  intros h. split; [reflexivity |].
  assert (valid_header h) as Hvalid.
  { unfold valid_header, h, int32. cbn.
    repeat split; try lia; auto.
    repeat constructor; cbn; lia. }
  destruct (X2_header_round_trip h (map byte_of_Z [97; 98; 99]) sample_records
              Hvalid ltac:(cbn; lia)) as [H _].
  exact H.
Defined.

(** ** Computations that only look forward *)

Create HintDb forward discriminated.

Lemma forward_only_ret {A} (a : A) : forward_only (ret a).
Proof. intros s s' H. split; [reflexivity | exact H]. Qed.

Lemma forward_only_raise {A} (e : error) : forward_only (@raise A e).
Proof. intros s s' H. split; [reflexivity | exact H]. Qed.

Lemma forward_only_undefined {A} : forward_only (@undefined A).
Proof. intros s s' H. split; [reflexivity | exact H]. Qed.

Lemma forward_only_bind {A B} (m : M A) (k : A -> M B) :
  forward_only m -> (forall a, forward_only (k a)) -> forward_only (bind m k).
Proof.
  intros Hm Hk s s' Hs. unfold bind.
  destruct (Hm s s' Hs) as [Hfst Hsnd].
  destruct (m s) as [[a | e |] s1], (m s') as [[a' | e' |] s1'];
    cbn [fst snd] in *; try discriminate Hfst.
  - inversion Hfst; subst. apply Hk. exact Hsnd.
  - split; [inversion Hfst; reflexivity | exact Hsnd].
  - split; [reflexivity | exact Hsnd].
Qed.

Lemma forward_only_read_bytes (n : nat) : forward_only (read_bytes n).
Proof.
  intros s s' (Hrem & Hin & Hin'). unfold in_bounds in *.
  pose proof (remaining_length s) as Hl.
  pose proof (remaining_length s') as Hl'.
  rewrite Hrem in Hl. unfold read_bytes.
  destruct (Nat.leb_spec (pos s + n) (length (buffer s)));
    destruct (Nat.leb_spec (pos s' + n) (length (buffer s'))); try lia;
    cbn [fst snd].
  - split; [rewrite Hrem; reflexivity |].
    repeat split; unfold in_bounds; cbn [buffer pos]; try lia.
    fold (advance n s). fold (advance n s').
    rewrite !remaining_advance, Hrem. reflexivity.
  - split; [reflexivity |]. repeat split; assumption.
Qed.

Lemma forward_only_udiv (a b : Z) : forward_only (udiv a b).
Proof.
  unfold udiv. destruct (b =? 0);
    [apply forward_only_undefined | apply forward_only_ret].
Qed.

#[local] Hint Resolve forward_only_ret forward_only_raise forward_only_undefined
  forward_only_read_bytes forward_only_udiv : forward.

(** Takes a computation apart along its binds. *)
Ltac forward_steps :=
  repeat first
    [ apply forward_only_bind; [| intros ?]
    | solve [auto with forward] ].

Lemma forward_only_read_id (lo prevID : Z) : forward_only (read_id lo prevID).
Proof.
  unfold read_id, read_uint8, read_uint16, read_uint32, read_uint64.
  code_cases lo; forward_steps.
Qed.

Lemma forward_only_read_offset (hi pointer_size prevOffset : Z) :
  forward_only (read_offset hi pointer_size prevOffset).
Proof.
  unfold read_offset.
  apply forward_only_bind.
  { destruct (negb (Z.land hi 8 =? 0)); auto with forward. }
  intros tmp. apply forward_only_bind.
  { unfold read_offset_mode, read_uint8, read_uint16, read_uint32, read_uint64.
    generalize (Z.land hi 7). intros code. code_cases code; forward_steps. }
  intros offset. destruct (negb (Z.land hi 8 =? 0)); auto with forward.
Qed.

Lemma forward_only_read_mapping (pointer_size prevID prevOffset : Z) :
  forward_only (read_mapping pointer_size prevID prevOffset).
Proof.
  unfold read_mapping, read_uint8.
  apply forward_only_bind; [forward_steps |].
  intros type. apply forward_only_bind; [apply forward_only_read_id |].
  intros id. apply forward_only_bind; [apply forward_only_read_offset |].
  intros offset. apply forward_only_ret.
Qed.

Lemma forward_only_read_mappings (n : nat) (pointer_size : Z) :
  forall prevID prevOffset,
    forward_only (read_mappings n pointer_size prevID prevOffset).
Proof.
  induction n as [| n IH]; intros prevID prevOffset; cbn [read_mappings].
  - apply forward_only_ret.
  - apply forward_only_bind; [apply forward_only_read_mapping |].
    intros m. apply forward_only_bind; [apply IH |].
    intros rest. apply forward_only_ret.
Qed.

(** ** What a decoded header is *)

Lemma read_bytes_ok_inv (n : nat) (s : span_istream) bs s' :
  read_bytes n s = (Ok bs, s') ->
  bs = firstn n (remaining s) /\ s' = advance n s
  /\ (pos s + n <= length (buffer s))%nat.
Proof.
  unfold read_bytes.
  destruct (Nat.leb_spec (pos s + n) (length (buffer s))) as [Hle | Hgt];
    intros H; inversion H; subst. auto.
Qed.

Lemma read_bytes_raise_inv (n : nat) (s : span_istream) e s' :
  read_bytes n s = (Raise e, s') -> e = OutOfBounds /\ s' = s.
Proof.
  unfold read_bytes. destruct (_ <=? _)%nat; intros H; inversion H; auto.
Qed.

Lemma to_int32_range (u : Z) : 0 <= u < 2 ^ 32 -> int32 (to_int32 u).
Proof.
  intros Hu. unfold int32, to_int32. destruct (Z.ltb_spec u (2 ^ 31)); lia.
Qed.

Lemma to_int32_from_le_range (bs : list byte) :
  int32 (to_int32 (from_le (firstn 4 bs))).
Proof.
  apply to_int32_range. pose proof (from_le_firstn_range 4 bs) as H.
  change (256 ^ Z.of_nat 4) with (2 ^ 32) in H. exact H.
Qed.

Lemma split_int32_valid (k : nat) (bs : list byte) :
  length (split_int32 k bs) = k /\ Forall int32 (split_int32 k bs).
Proof.
  revert bs. induction k as [| k IH]; intros bs; cbn [split_int32].
  - split; [reflexivity | constructor].
  - destruct (IH (skipn 4 bs)) as [Hlen Hall]. split.
    + cbn [length]. now rewrite Hlen.
    + constructor; [apply to_int32_from_le_range | exact Hall].
Qed.

Lemma read_int32_ok_inv (s : span_istream) v s' :
  read_int32 s = (Ok v, s') ->
  int32 v /\ s' = advance 4 s /\ (pos s + 4 <= length (buffer s))%nat.
Proof.
  unfold read_int32. intros H.
  apply bind_ok_inv in H. destruct H as (bs & s1 & Hr & H).
  apply read_bytes_ok_inv in Hr. destruct Hr as (-> & -> & Hlen).
  inversion H; subst. split; [apply to_int32_from_le_range | auto].
Qed.

Lemma read_int32s_ok_inv (k : nat) (s : span_istream) vs s' :
  read_int32s k s = (Ok vs, s') ->
  length vs = k /\ Forall int32 vs /\ s' = advance (4 * k) s
  /\ (pos s + 4 * k <= length (buffer s))%nat.
Proof.
  unfold read_int32s. intros H.
  apply bind_ok_inv in H. destruct H as (bs & s1 & Hr & H).
  apply read_bytes_ok_inv in Hr. destruct Hr as (-> & -> & Hlen).
  inversion H; subst.
  destruct (split_int32_valid k (firstn (4 * k) (remaining s))) as [Hl Ha].
  auto.
Qed.

(** What comes out of the header decoder: a valid header, read from at
    least 24 bytes; or one of two exceptions. *)
Lemma read_header_ok_inv (s : span_istream) h s1 :
  read_header s = (Ok h, s1) ->
  valid_header h /\ (pos s + 24 <= length (buffer s))%nat
  /\ buffer s1 = buffer s /\ in_bounds s1.
Proof.
  unfold read_header. intros H.
  apply bind_ok_inv in H. destruct H as (fmt & sa & Hfmt & H).
  apply read_int32_ok_inv in Hfmt. destruct Hfmt as (Hf32 & -> & Hl1).
  apply bind_ok_inv in H. destruct H as ([] & sb & Hsw & H).
  assert ((fmt = 1 \/ fmt = 2) /\ sb = advance 4 s) as [Hfmt ->].
  { destruct fmt as [| [p | [p | p |] |] | p];
      inversion Hsw; subst; auto. }
  apply bind_ok_inv in H. destruct H as (vs & sc & Hvs & H).
  apply read_int32s_ok_inv in Hvs. destruct Hvs as (Hvl & Hva & -> & Hl2).
  apply bind_ok_inv in H. destruct H as (nameLen & sd & Hn & H).
  apply read_int32_ok_inv in Hn. destruct Hn as (_ & -> & Hl3).
  apply bind_ok_inv in H. destruct H as ([] & se & Hseek & H).
  assert (buffer se = buffer s) as Hbuf.
  { unfold seek_relative in Hseek.
    destruct (_ && _); inversion Hseek; subst; reflexivity. }
  apply bind_ok_inv in H. destruct H as (fields & sf & Hfs & H).
  apply read_int32s_ok_inv in Hfs. destruct Hfs as (Hfl & Hfa & -> & Hl4).
  inversion H; subst.
  unfold in_bounds. cbn [advance pos buffer] in *.
  split; [| split; [lia | split; [exact Hbuf | lia]]].
  unfold valid_header. cbn [format version pointer_size address_count].
  destruct fields as [| a [| b [| c fields]]]; try discriminate Hfl.
  inversion Hfa as [| ? ? Ha Hfa']; subst.
  inversion Hfa' as [| ? ? Hb _]; subst.
  cbn [nth]. auto.
Qed.

Lemma read_header_defined (s s' : span_istream) :
  read_header s <> (Undefined, s').
Proof.
  unfold read_header, read_int32, read_int32s, bind, ret, raise,
    read_bytes, seek_relative.
  repeat match goal with
         | |- context [if ?c then _ else _] => destruct c
         | |- context [match ?z with 0 => _ | Z.pos _ => _ | Z.neg _ => _ end] =>
             destruct z as [| [? | [? | ? |] |] | ?]
         end; discriminate.
Qed.

Lemma read_header_raise_inv (s : span_istream) e s1 :
  read_header s = (Raise e, s1) ->
  e = OutOfBounds \/ exists f, e = InvalidFormat f /\ f <> 1 /\ f <> 2.
Proof.
  intros H. unfold read_header in H.
  apply bind_raise_inv in H. destruct H as [H | (fmt & sa & _ & H)].
  { unfold read_int32 in H. apply bind_raise_inv in H.
    destruct H as [H | (bs & sb & _ & H)]; [| discriminate H].
    apply read_bytes_raise_inv in H. tauto. }
  apply bind_raise_inv in H. destruct H as [H | ([] & sb & _ & H)].
  { right. exists fmt.
    destruct fmt as [| [p | [p | p |] |] | p];
      inversion H; subst; repeat split; discriminate. }
  left.
  assert (raises_only (fun e => e = OutOfBounds)
            (version <- read_int32s 4 ;;
             nameLen <- read_int32 ;;
             seek_relative nameLen ;;;
             fields <- read_int32s 2 ;;
             ret (mk_header fmt version (nth 0 fields 0) (nth 1 fields 0))))
    as Htail.
  { unfold read_int32, read_int32s.
    repeat first
      [ apply raises_only_bind; [| intros ?]
      | apply raises_only_read_bytes; reflexivity
      | apply raises_only_seek_relative; reflexivity
      | apply raises_only_ret ]. }
  exact (Htail _ _ _ H).
Qed.

(** X3. The header decoder ends in one of three ways.  When it returns a
    header, the format is 1 or 2, there are four version numbers, every
    field is a 32-bit signed value, and at least 24 bytes lay behind the
    cursor; the buffer is untouched and the cursor is inside it.  When it
    throws, the exception is the cursor's [OutOfBounds] or [InvalidFormat]
    with a format other than 1 and 2.  It never meets undefined behaviour.
    With fewer than four bytes left it throws [OutOfBounds] and leaves the
    cursor where it was. *)
Theorem X3_header_outcomes (s : span_istream) :
  (forall h s1,
      read_header s = (Ok h, s1) ->
      valid_header h /\ (pos s + 24 <= length (buffer s))%nat
      /\ buffer s1 = buffer s /\ in_bounds s1)
  /\ (forall e s1,
         read_header s = (Raise e, s1) ->
         e = OutOfBounds \/ exists f, e = InvalidFormat f /\ f <> 1 /\ f <> 2)
  /\ (forall s1, read_header s <> (Undefined, s1))
  /\ ((length (buffer s) < pos s + 4)%nat ->
      read_header s = (Raise OutOfBounds, s)).
Proof.
  split; [intros h s1; apply read_header_ok_inv |].
  split; [intros e s1; apply read_header_raise_inv |].
  split; [intros s1; apply read_header_defined |].
  intros Hlen. unfold read_header. apply bind_raise.
  unfold read_int32. apply bind_raise. apply read_bytes_short. exact Hlen.
Qed.

Lemma X3_witness :
  valid_header (mk_header 1 [1; 5; 97; 0] 8 4)
  /\ read_header (open_file (map byte_of_Z [1; 0; 0]))
     = (Raise OutOfBounds, open_file (map byte_of_Z [1; 0; 0])).
Proof.
  split.
  - destruct (X3_header_outcomes (open_file sample_file)) as (Hok & _).
    destruct (Hok (mk_header 1 [1; 5; 97; 0] 8 4)
                  (mk_span_istream sample_file 35)) as (Hvalid & _).
    + vm_compute. reflexivity.
    + exact Hvalid.
  - destruct (X3_header_outcomes (open_file (map byte_of_Z [1; 0; 0])))
      as (_ & _ & _ & Hshort).
    apply Hshort. cbn. lia.
Defined.

(** X4. The format generation (1 or 2), the version numbers and the name
    stored in the header have no influence on what is decoded: two files
    with valid headers that agree on the pointer size and on the record
    count, followed by the same bytes, give the same mappings or the same
    failure. *)
Theorem X4_version_and_name_ignored (heap : Allocator) (h1 h2 : header_t)
        (name1 name2 records : list byte) :
  valid_header h1 -> valid_header h2 ->
  Z.of_nat (length name1) < 2 ^ 31 ->
  Z.of_nat (length name2) < 2 ^ 31 ->
  pointer_size h1 = pointer_size h2 ->
  address_count h1 = address_count h2 ->
  fst (read_file (open_file (header_bytes h1 name1 ++ records)))
  = fst (read_file (open_file (header_bytes h2 name2 ++ records))).
Proof.
  intros Hv1 Hv2 Hn1 Hn2 Hps Hcount.
  destruct (read_header_bytes _ h1 name1 records
              (open_file_in_bounds _) Hv1 Hn1 eq_refl) as (Hh1 & Hin1 & Hrem1).
  destruct (read_header_bytes _ h2 name2 records
              (open_file_in_bounds _) Hv2 Hn2 eq_refl) as (Hh2 & Hin2 & Hrem2).
  rewrite (read_file_header_ok _ _ _ Hh1), (read_file_header_ok _ _ _ Hh2).
  rewrite Hps, Hcount.
  destruct ((address_count h2 <? 0) || (max_size <? address_count h2));
    [reflexivity |].
  destruct (can_allocate (address_count h2)); [| reflexivity].
  apply forward_only_read_mappings.
  split; [| split; assumption]. rewrite Hrem1, Hrem2. reflexivity.
Qed.

Lemma X4_witness :
  fst (read_file (heap := sample_heap)
                 (open_file (header_bytes (mk_header 2 [9; 9; 9; 9] 8 4) []
                             ++ sample_records)))
  = Ok [(300, 4096); (301, 4097); (296, 4104); (300, 305419896)].
Proof.
  assert (forall f vs, f = 1 \/ f = 2 -> Forall int32 vs -> length vs = 4%nat ->
                       valid_header (mk_header f vs 8 4)) as Hvalid.
  { intros f vs Hf Hvs Hl. unfold valid_header, int32. cbn.
    repeat split; try assumption; lia. }
  rewrite (X4_version_and_name_ignored sample_heap
             (mk_header 2 [9; 9; 9; 9] 8 4) (mk_header 1 [1; 5; 97; 0] 8 4)
             [] (map byte_of_Z [97; 98; 99]) sample_records).
  - vm_compute. reflexivity.
  - apply Hvalid; [right; reflexivity | | reflexivity].
    unfold int32. repeat constructor; cbn; lia.
  - apply Hvalid; [left; reflexivity | | reflexivity].
    unfold int32. repeat constructor; cbn; lia.
  - cbn. lia.
  - cbn. lia.
  - reflexivity.
  - reflexivity.
Defined.

(** ** Bytes taken by the records *)

Lemma spec_width_bound (code : Z) : (spec_width (spec_mode code) <= 8)%nat.
Proof. code_cases code; cbn; lia. Qed.

Lemma spec_decode_ok_inv unhandled m base s v s' :
  spec_decode unhandled m base s = (Ok v, s') ->
  s' = advance (spec_width m) s /\ (in_bounds s -> in_bounds s').
Proof.
  assert (forall w (r : Z),
             (if (pos s + w <=? length (buffer s))%nat
              then (Ok r, mk_span_istream (buffer s) (pos s + w))
              else (Raise OutOfBounds, s)) = (Ok v, s') ->
             s' = advance w s /\ (in_bounds s -> in_bounds s')) as Hread.
  { intros w r.
    destruct (Nat.leb_spec (pos s + w) (length (buffer s))) as [Hle | Hgt];
      intros H; inversion H; subst.
    split; [reflexivity |]. intros _. exact Hle. }
  unfold spec_decode.
  destruct m as [w | | w | w |]; cbn [spec_width];
    try discriminate; try apply Hread.
  intros H. inversion H; subst. rewrite advance_0. auto.
Qed.

Lemma read_offset_ok_inv hi pointer_size prevOffset s v s' :
  read_offset hi pointer_size prevOffset s = (Ok v, s') ->
  s' = advance (spec_width (spec_mode (Z.land hi 7))) s
  /\ (in_bounds s -> in_bounds s').
Proof.
  destruct (Z.eq_dec (Z.land hi 8) 0) as [Hbit | Hbit].
  - rewrite read_offset_unscaled by exact Hbit. apply spec_decode_ok_inv.
  - destruct (Z.eq_dec (int32_to_u64 pointer_size) 0) as [Hps | Hps].
    + rewrite read_offset_zero_divisor by assumption. discriminate.
    + rewrite read_offset_scaled by assumption.
      destruct (spec_decode _ _ _ s) as [[v1 | e1 |] s1] eqn:Hd;
        intros H; inversion H; subst.
      exact (spec_decode_ok_inv _ _ _ _ _ _ Hd).
Qed.

(** A record that decodes takes its tag byte and the bytes of its two
    fields, which are all there. *)
Lemma read_mapping_ok_inv pointer_size prevID prevOffset s m s' :
  read_mapping pointer_size prevID prevOffset s = (Ok m, s') ->
  let taken := (1 + spec_width (spec_mode (Z.land (byte_at s) 15))
                + spec_width (spec_mode (Z.land (Z.shiftr (byte_at s) 4) 7)))%nat in
  s' = advance taken s /\ (pos s + taken <= length (buffer s))%nat.
Proof.
  destruct (Nat.lt_ge_cases (pos s) (length (buffer s))) as [Hlen | Hlen].
  - rewrite read_mapping_tag by exact Hlen. intros H taken.
    apply bind_ok_inv in H. destruct H as (id & s1 & Hid & H).
    apply bind_ok_inv in H. destruct H as (off & s2 & Hoff & H).
    inversion H; subst. rewrite read_id_spec in Hid.
    apply spec_decode_ok_inv in Hid. destruct Hid as [-> Hin1].
    apply read_offset_ok_inv in Hoff. destruct Hoff as [-> Hin2].
    assert (in_bounds (advance 1 s)) as Hin0
        by (unfold in_bounds; cbn [advance pos buffer]; lia).
    specialize (Hin2 (Hin1 Hin0)).
    rewrite !advance_advance. split; [reflexivity |].
    unfold in_bounds in Hin2. cbn [advance pos buffer] in Hin2.
    unfold taken. lia.
  - rewrite read_mapping_no_tag by exact Hlen. discriminate.
Qed.

Lemma read_mappings_ok_inv n pointer_size :
  forall prevID prevOffset s ms s',
    read_mappings n pointer_size prevID prevOffset s = (Ok ms, s') ->
    buffer s' = buffer s
    /\ (pos s + n <= pos s' <= pos s + 17 * n)%nat
    /\ (in_bounds s -> in_bounds s').
Proof.
  induction n as [| n IH]; intros prevID prevOffset s ms s' H.
  - inversion H; subst. repeat split; auto; lia.
  - cbn [read_mappings] in H.
    apply bind_ok_inv in H. destruct H as (m & s1 & Hm & H).
    apply bind_ok_inv in H. destruct H as (rest & s2 & Hrest & H).
    inversion H; subst.
    apply read_mapping_ok_inv in Hm. cbn zeta in Hm. destruct Hm as [-> Hfit].
    apply IH in Hrest. destruct Hrest as (Hbuf & Hpos & Hin).
    pose proof (spec_width_bound (Z.land (byte_at s) 15)) as Hw1.
    pose proof (spec_width_bound (Z.land (Z.shiftr (byte_at s) 4) 7)) as Hw2.
    cbn [advance buffer pos] in *.
    split; [exact Hbuf |]. split; [lia |].
    intros _. apply Hin. unfold in_bounds, advance. cbn [buffer pos]. lia.
Qed.

(** X5. Once the header is decoded and the vector of mappings allocated,
    nothing before the cursor matters any more: the outcome of [read_file]
    is the outcome of the record loop run on the bytes behind the header
    alone, as a buffer of their own, with the pointer size and the count of
    the header. *)
Theorem X5_records_decode_alone (heap : Allocator) (s : span_istream)
        (h : header_t) (s1 : span_istream) :
  read_header s = (Ok h, s1) ->
  allocated (address_count h) ->
  fst (read_file s)
  = fst (read_mappings (Z.to_nat (address_count h)) (pointer_size h) 0 0
                       (open_file (remaining s1))).
Proof.
  intros Hh Halloc.
  rewrite (read_file_allocated _ _ _ Hh Halloc).
  apply forward_only_read_mappings.
  destruct (read_header_ok_inv _ _ _ Hh) as (_ & _ & _ & Hin).
  split; [reflexivity |].
  split; [exact Hin | apply open_file_in_bounds].
Qed.

Lemma X5_witness :
  fst (read_file (heap := sample_heap) (open_file sample_file))
  = fst (read_mappings 4 8 0 0 (open_file sample_records)).
Proof.
  apply (X5_records_decode_alone sample_heap (open_file sample_file)
           (mk_header 1 [1; 5; 97; 0] 8 4) (mk_span_istream sample_file 35)).
  - vm_compute. reflexivity.
  - split; [cbn; lia | reflexivity].
Defined.

(** X6. A record that decodes takes exactly its tag byte plus the bytes of
    the id field and of the offset field its two nibbles select -- between
    1 and 17 bytes -- all of which lie inside the buffer; the buffer is not
    changed. *)
Theorem X6_record_bytes (pointer_size prevID prevOffset : Z)
        (s : span_istream) (m : mapping) (s' : span_istream) :
  read_mapping pointer_size prevID prevOffset s = (Ok m, s') ->
  let id_bytes := spec_width (spec_mode (Z.land (byte_at s) 15)) in
  let offset_bytes :=
    spec_width (spec_mode (Z.land (Z.shiftr (byte_at s) 4) 7)) in
  buffer s' = buffer s
  /\ pos s' = (pos s + 1 + id_bytes + offset_bytes)%nat
  /\ (1 <= 1 + id_bytes + offset_bytes <= 17)%nat
  /\ (pos s' <= length (buffer s))%nat.
Proof.
  intros H id_bytes offset_bytes.
  apply read_mapping_ok_inv in H. cbn zeta in H. destruct H as [-> Hfit].
  pose proof (spec_width_bound (Z.land (byte_at s) 15)) as Hw1.
  pose proof (spec_width_bound (Z.land (Z.shiftr (byte_at s) 4) 7)) as Hw2.
  fold id_bytes in Hfit, Hw1. fold offset_bytes in Hfit, Hw2.
  cbn [advance buffer pos].
  split; [reflexivity |]. split; [fold id_bytes offset_bytes; lia |].
  split; lia.
Qed.

Lemma X6_witness :
  let s := mk_span_istream sample_file 35 in
  byte_at s = 6
  /\ read_mapping 8 0 0 s = (Ok (300, 4096), mk_span_istream sample_file 46)
  /\ (46 = 35 + 1 + spec_width (spec_mode (Z.land (byte_at s) 15))
           + spec_width (spec_mode (Z.land (Z.shiftr (byte_at s) 4) 7)))%nat.
Proof.
  intros s.
  assert (read_mapping 8 0 0 s = (Ok (300, 4096), mk_span_istream sample_file 46))
    as H by (vm_compute; reflexivity).
  split; [vm_compute; reflexivity |].
  split; [exact H |].
  destruct (X6_record_bytes 8 0 0 s _ _ H) as (_ & Hpos & _).
  exact Hpos.
Defined.

(** X7. When a file decodes, the mappings are as many as the header
    announces, the buffer is unchanged, and the records took at least one
    and at most 17 bytes each, all inside the buffer: a header that
    announces more records than bytes follow it never decodes. *)
Theorem X7_file_bytes (heap : Allocator) (s : span_istream)
        (ms : list mapping) (s2 : span_istream) :
  read_file s = (Ok ms, s2) ->
  exists h s1,
    read_header s = (Ok h, s1)
    /\ address_count h = Z.of_nat (length ms)
    /\ buffer s2 = buffer s
    /\ (pos s1 + length ms <= pos s2 <= pos s1 + 17 * length ms)%nat
    /\ (pos s2 <= length (buffer s))%nat
    /\ Z.of_nat (pos s1) + address_count h <= Z.of_nat (length (buffer s)).
Proof.
  intros H.
  assert (exists h s1, read_header s = (Ok h, s1)) as (h & s1 & Hh).
  { unfold read_file in H. apply bind_ok_inv in H.
    destruct H as (h & s1 & Hh & _). eauto. }
  exists h, s1. split; [exact Hh |].
  apply (read_file_loop _ _ _ _ _ Hh) in H; [| discriminate | discriminate].
  destruct H as [[[Hpos _] _] H].
  pose proof (read_mappings_length _ _ _ _ _ _ _ H) as Hlen.
  destruct (read_header_ok_inv _ _ _ Hh) as (_ & _ & Hbuf1 & Hin1).
  destruct (read_mappings_ok_inv _ _ _ _ _ _ _ H) as (Hbuf2 & Hbytes & Hin2).
  specialize (Hin2 Hin1). unfold in_bounds in Hin2.
  rewrite Hbuf2, Hbuf1 in Hin2. rewrite <- Hlen in Hbytes.
  split; [lia |]. split; [congruence |].
  split; [exact Hbytes |]. split; [exact Hin2 |].
  lia.
Qed.

Lemma X7_witness :
  exists h s1,
    read_header (open_file sample_file) = (Ok h, s1)
    /\ address_count h = 4 /\ pos s1 = 35%nat
    /\ (pos s1 + 4 <= 55 <= pos s1 + 17 * 4)%nat.
Proof.
  destruct (X7_file_bytes sample_heap (open_file sample_file)
              [(300, 4096); (301, 4097); (296, 4104); (300, 305419896)]
              (mk_span_istream sample_file 55))
    as (h & s1 & Hh & Hcount & _ & Hbytes & _).
  - vm_compute. reflexivity.
  - exists h, s1. split; [exact Hh |].
    assert (read_header (open_file sample_file)
            = (Ok (mk_header 1 [1; 5; 97; 0] 8 4), mk_span_istream sample_file 35))
      as Hh' by (vm_compute; reflexivity).
    rewrite Hh in Hh'. inversion Hh'; subst.
    repeat split; cbn; lia.
Defined.

(** ** Where the decoder can fail *)

Lemma bind_undefined_inv {A B} (m : M A) (k : A -> M B) s s2 :
  bind m k s = (Undefined, s2) ->
  m s = (Undefined, s2)
  \/ exists a s1, m s = (Ok a, s1) /\ k a s1 = (Undefined, s2).
Proof.
  unfold bind. destruct (m s) as [[a | e |] s1]; intros H; try discriminate H.
  - right. exists a, s1. split; [reflexivity | exact H].
  - left. inversion H. reflexivity.
Qed.

Lemma spec_decode_never_undefined unhandled m base s s' :
  spec_decode unhandled m base s <> (Undefined, s').
Proof.
  unfold spec_decode.
  destruct m; try discriminate; destruct (_ <=? _)%nat; discriminate.
Qed.

Lemma read_offset_undefined_inv hi pointer_size prevOffset s s' :
  read_offset hi pointer_size prevOffset s = (Undefined, s') ->
  Z.land hi 8 <> 0 /\ int32_to_u64 pointer_size = 0 /\ s' = s.
Proof.
  destruct (Z.eq_dec (Z.land hi 8) 0) as [Hbit | Hbit].
  - rewrite read_offset_unscaled by exact Hbit. intros H.
    exfalso. exact (spec_decode_never_undefined _ _ _ _ _ H).
  - destruct (Z.eq_dec (int32_to_u64 pointer_size) 0) as [Hps | Hps].
    + rewrite read_offset_zero_divisor by assumption.
      intros H. inversion H. auto.
    + rewrite read_offset_scaled by assumption.
      destruct (spec_decode _ _ _ s) as [[v | e |] s1] eqn:Hd;
        intros H; inversion H; subst.
      exfalso. exact (spec_decode_never_undefined _ _ _ _ _ Hd).
Qed.

Lemma read_mapping_undefined_inv pointer_size prevID prevOffset s s' :
  read_mapping pointer_size prevID prevOffset s = (Undefined, s') ->
  (pos s < length (buffer s))%nat
  /\ Z.land (Z.shiftr (byte_at s) 4) 8 <> 0
  /\ int32_to_u64 pointer_size = 0.
Proof.
  destruct (Nat.lt_ge_cases (pos s) (length (buffer s))) as [Hlen | Hlen].
  - rewrite read_mapping_tag by exact Hlen. intros H.
    apply bind_undefined_inv in H. destruct H as [H | (id & s1 & _ & H)].
    { rewrite read_id_spec in H.
      exfalso. exact (spec_decode_never_undefined _ _ _ _ _ H). }
    apply bind_undefined_inv in H. destruct H as [H | (off & s2 & _ & H)];
      [| discriminate H].
    apply read_offset_undefined_inv in H. tauto.
  - rewrite read_mapping_no_tag by exact Hlen. discriminate.
Qed.

Lemma read_mapping_undefined_division pointer_size prevID prevOffset s s' :
  read_mapping pointer_size prevID prevOffset s = (Undefined, s') ->
  division_first pointer_size s = true
  /\ s' = advance (spec_width (spec_mode (Z.land (byte_at s) 15)))
                  (advance 1 s).
Proof.
  intros H.
  destruct (division_first pointer_size s) eqn:Hdiv.
  - rewrite (read_mapping_division_first _ prevID prevOffset _ Hdiv) in H.
    inversion H. auto.
  - exfalso.
    destruct (read_mapping_undefined_inv _ _ _ _ _ H) as (Hlen & Hbit & Hps).
    destruct (unhandled_first s) eqn:Hun.
    + rewrite (read_mapping_unhandled_first _ prevID prevOffset _ Hun) in H.
      discriminate H.
    + assert (fields_short s = true) as Hshort.
      { unfold fields_short, unhandled_first, division_first in *.
        apply Bool.orb_true_iff. right. apply Nat.ltb_lt.
        apply Nat.ltb_lt in Hlen as Hlt. rewrite Hlt in Hun.
        cbn [andb] in Hun. apply Z.ltb_ge in Hun.
        apply Z.leb_le in Hun as Hlo. rewrite Hlo in Hdiv.
        apply Z.eqb_neq in Hbit as Hb. rewrite Hb in Hdiv.
        apply Z.eqb_eq in Hps as Hz. rewrite Hz in Hdiv.
        cbn [negb] in Hdiv. rewrite !Bool.andb_true_r in Hdiv.
        apply Nat.leb_gt in Hdiv. lia. }
      destruct (read_mapping_truncated _ prevID prevOffset _ Hshort Hun Hdiv)
        as [s2 Hfail].
      rewrite Hfail in H. discriminate H.
Qed.

Lemma read_mappings_undefined_inv n pointer_size :
  forall prevID prevOffset s s',
    read_mappings n pointer_size prevID prevOffset s = (Undefined, s') ->
    exists k ms s0,
      (k < n)%nat
      /\ read_mappings k pointer_size prevID prevOffset s = (Ok ms, s0)
      /\ read_mapping pointer_size (fst (carried ms prevID prevOffset))
                      (snd (carried ms prevID prevOffset)) s0
         = (Undefined, s').
Proof.
  induction n as [| n IH]; intros prevID prevOffset s s' H.
  - discriminate H.
  - cbn [read_mappings] in H. apply bind_undefined_inv in H.
    destruct H as [H | (m & s1 & Hm & H)].
    + exists 0%nat, [], s. split; [lia |]. split; [reflexivity | exact H].
    + apply bind_undefined_inv in H.
      destruct H as [H | (rest & s2 & _ & H)]; [| discriminate H].
      destruct (IH _ _ _ _ H) as (k & ms & s0 & Hk & Hok & Hfail).
      exists (S k), (m :: ms), s0. split; [lia |]. split.
      * cbn [read_mappings]. rewrite (bind_ok _ _ _ _ _ Hm).
        rewrite (bind_ok _ _ _ _ _ Hok). reflexivity.
      * unfold carried in *. rewrite last_cons_default.
        rewrite <- surjective_pairing in Hfail. exact Hfail.
Qed.

Lemma int32_to_u64_zero (v : Z) : int32 v -> int32_to_u64 v = 0 -> v = 0.
Proof.
  unfold int32, int32_to_u64. intros Hv H.
  destruct (Z.le_gt_cases 0 v) as [Hpos | Hneg].
  - rewrite Z.mod_small in H by lia. exact H.
  - assert (v mod 2 ^ 64 = v + 2 ^ 64) as Heq
        by (symmetry; apply Z.mod_unique with (q := -1); lia).
    lia.
Qed.

Lemma read_mapping_raise_kinds pointer_size prevID prevOffset s e s' :
  read_mapping pointer_size prevID prevOffset s = (Raise e, s') ->
  e = OutOfBounds \/ e = UnhandledTag 123.
Proof.
  destruct (Nat.lt_ge_cases (pos s) (length (buffer s))) as [Hlen | Hlen].
  - rewrite read_mapping_tag by exact Hlen. intros H.
    apply bind_raise_inv in H. destruct H as [H | (id & s1 & _ & H)].
    + rewrite read_id_spec in H. apply spec_decode_raise in H.
      destruct H as [_ [[_ He] | (_ & He & _)]]; auto.
    + apply bind_raise_inv in H.
      destruct H as [H | (off & s2 & _ & H)]; [| discriminate H].
      apply read_offset_raise in H. tauto.
  - rewrite read_mapping_no_tag by exact Hlen.
    intros H. inversion H. auto.
Qed.

(** X8. The decoder meets undefined behaviour in one situation only: the
    header decodes with [pointer_size = 0], the vector of mappings is
    allocated, some number [k] of records below the announced count decode,
    and record [k] has a tag byte with bit 3 of the high nibble set, an id
    nibble of 0 to 7 and its id field inside the buffer; the cursor is left
    behind that id field.  With any other pointer size [read_file] returns
    mappings or throws. *)
Theorem X8_undefined_only_by_zero_pointer_size (heap : Allocator)
        (s s' : span_istream) :
  read_file s = (Undefined, s') ->
  exists h s1 k ms s0,
    read_header s = (Ok h, s1)
    /\ pointer_size h = 0
    /\ 0 < address_count h
    /\ allocated (address_count h)
    /\ Z.of_nat k < address_count h
    /\ read_mappings k (pointer_size h) 0 0 s1 = (Ok ms, s0)
    /\ (pos s0 < length (buffer s0))%nat
    /\ Z.land (Z.shiftr (byte_at s0) 4) 8 <> 0
    /\ division_first (pointer_size h) s0 = true
    /\ s' = advance (spec_width (spec_mode (Z.land (byte_at s0) 15)))
                    (advance 1 s0).
Proof.
  intros H.
  assert (exists h s1, read_header s = (Ok h, s1)) as (h & s1 & Hh).
  { unfold read_file in H. apply bind_undefined_inv in H.
    destruct H as [H | (h & s1 & Hh & _)]; [| eauto].
    exfalso. exact (read_header_defined _ _ H). }
  apply (read_file_loop _ _ _ _ _ Hh) in H; [| discriminate | discriminate].
  destruct H as [Halloc H].
  apply read_mappings_undefined_inv in H.
  destruct H as (k & ms & s0 & Hk & Hok & H).
  destruct (read_mapping_undefined_inv _ _ _ _ _ H) as (Hlen & Hbit & Hps).
  destruct (read_mapping_undefined_division _ _ _ _ _ H) as (Hdiv & Hs').
  destruct (read_header_ok_inv _ _ _ Hh) as ((_ & _ & _ & Hps32 & _) & _).
  destruct Halloc as [Hrange Hroom].
  exists h, s1, k, ms, s0.
  split; [exact Hh |].
  split; [exact (int32_to_u64_zero _ Hps32 Hps) |].
  split; [lia |].
  split; [split; assumption |].
  split; [lia |].
  repeat (split; [assumption |]). exact Hs'.
Qed.

Lemma X8_witness :
  exists h s1 s0,
    read_header (open_file zero_pointer_file) = (Ok h, s1)
    /\ pointer_size h = 0
    /\ read_mappings 0 (pointer_size h) 0 0 s1 = (Ok [], s0)
    /\ division_first (pointer_size h) s0 = true.
Proof.
  destruct (X8_undefined_only_by_zero_pointer_size sample_heap
              (open_file zero_pointer_file)
              (mk_span_istream zero_pointer_file 36))
    as (h & s1 & k & ms & s0 & Hh & Hps & _ & _ & Hk & Hok & _ & _ & Hdiv & _).
  - vm_compute. reflexivity.
  - assert (read_header (open_file zero_pointer_file)
            = (Ok (mk_header 1 [1; 5; 97; 0] 0 1),
               mk_span_istream zero_pointer_file 35))
      as Hh' by (vm_compute; reflexivity).
    rewrite Hh in Hh'. inversion Hh'; subst. cbn in Hk.
    assert (k = 0%nat) as -> by lia.
    assert (ms = []) as -> by (cbn in Hok; inversion Hok; reflexivity).
    exists (mk_header 1 [1; 5; 97; 0] 0 1),
           (mk_span_istream zero_pointer_file 35), s0.
    split; [exact Hh |]. split; [reflexivity |].
    split; [exact Hok | exact Hdiv].
Defined.

(** X9. The exceptions of [read_file] are five: [InvalidFormat], thrown by
    the header decoder for a format other than 1 and 2; the cursor's
    [OutOfBounds]; [UnhandledTag] from the id switch (main.cpp:123); and the
    two of the vector's sizing constructor (main.cpp:85), thrown once the
    header is decoded and before any record is read: [LengthError] exactly
    when [address_count], converted to a size, exceeds the vector's
    [max_size] -- a negative count always does, a large positive one does
    where [max_size] is small -- and [BadAlloc] exactly when the count is
    within [max_size] and the allocator has no room for it.  It never
    throws the exception of the argument check. *)
Theorem X9_read_file_exceptions (heap : Allocator) (s : span_istream) :
  (forall e s',
      read_file s = (Raise e, s') ->
      match e with
      | InvalidFormat f => f <> 1 /\ f <> 2 /\ read_header s = (Raise e, s')
      | OutOfBounds => True
      | UnhandledTag line => line = 123%nat
      | LengthError =>
          exists h, read_header s = (Ok h, s')
                    /\ (address_count h < 0 \/ max_size < address_count h)
      | BadAlloc =>
          exists h, read_header s = (Ok h, s')
                    /\ 0 <= address_count h <= max_size
                    /\ can_allocate (address_count h) = false
      | BadArguments _ => False
      end)
  /\ (forall h s1,
         read_header s = (Ok h, s1) ->
         address_count h < 0 \/ max_size < address_count h ->
         read_file s = (Raise LengthError, s1))
  /\ (forall h s1,
         read_header s = (Ok h, s1) ->
         0 <= address_count h <= max_size ->
         can_allocate (address_count h) = false ->
         read_file s = (Raise BadAlloc, s1)).
Proof.
  split; [| split].
  - intros e s' H.
    destruct (read_header s) as [[h | eh |] s1] eqn:Hh.
    + rewrite (read_file_header_ok _ _ _ Hh) in H.
      destruct (Z.ltb_spec (address_count h) 0) as [Hneg | Hpos];
        [cbn [orb] in H; inversion H; subst; exists h; auto |].
      destruct (Z.ltb_spec max_size (address_count h)) as [Hbig | Hfit];
        [cbn [orb] in H; inversion H; subst; exists h; auto |].
      cbn [orb] in H.
      destruct (can_allocate (address_count h)) eqn:Hroom.
      * apply read_mappings_raise_inv in H.
        destruct H as (prevID & prevOffset & s0 & H).
        apply read_mapping_raise_kinds in H.
        destruct H as [-> | ->]; [exact I | reflexivity].
      * inversion H; subst. exists h. auto.
    + rewrite (read_file_header_raise _ _ _ Hh) in H. inversion H; subst.
      destruct (read_header_raise_inv _ _ _ Hh) as [-> | (f & -> & H1 & H2)];
        [exact I | auto].
    + exfalso. exact (read_header_defined _ _ Hh).
  - intros h s1 Hh Hout. rewrite (read_file_header_ok _ _ _ Hh).
    destruct (Z.ltb_spec (address_count h) 0); [reflexivity |].
    destruct (Z.ltb_spec max_size (address_count h)); [reflexivity | lia].
  - intros h s1 Hh Hin Hroom. rewrite (read_file_header_ok _ _ _ Hh).
    destruct (Z.ltb_spec (address_count h) 0); [lia |].
    destruct (Z.ltb_spec max_size (address_count h)); [lia |].
    cbn [orb]. rewrite Hroom. reflexivity.
Qed.

Lemma X9_witness :
  read_file (heap := sample_heap) (open_file (sample_header 8 (-1)))
  = (Raise LengthError, mk_span_istream (sample_header 8 (-1)) 35)
  /\ read_file (heap := sample_heap) (open_file huge_count_file)
     = (Raise BadAlloc, mk_span_istream huge_count_file 35).
Proof.
  split.
  - destruct (X9_read_file_exceptions sample_heap
                (open_file (sample_header 8 (-1))))
      as (_ & Hout & _).
    apply (Hout (mk_header 1 [1; 5; 97; 0] 8 (-1))).
    + vm_compute. reflexivity.
    + left. cbn. lia.
  - destruct (X9_read_file_exceptions sample_heap (open_file huge_count_file))
      as (_ & _ & Hroom).
    apply (Hroom (mk_header 1 [1; 5; 97; 0] 8 2147483647)).
    + vm_compute. reflexivity.
    + cbn. lia.
    + reflexivity.
Defined.

(** X10. When bit 3 of the high nibble is clear the pointer size plays no
    part: the offset is decoded by the mode table from the previous offset
    itself, and a record decodes the same under any two pointer sizes, a
    zero one included. *)
Theorem X10_unscaled_ignores_pointer_size (hi prevOffset : Z)
        (s : span_istream) :
  Z.land hi 8 = 0 ->
  (forall pointer_size,
      read_offset hi pointer_size prevOffset s
      = spec_decode (UnhandledTag 154) (spec_mode (Z.land hi 7)) prevOffset s)
  /\ (forall pointer_size pointer_size' prevID s0,
         (pos s0 < length (buffer s0))%nat ->
         hi = Z.shiftr (byte_at s0) 4 ->
         read_mapping pointer_size prevID prevOffset s0
         = read_mapping pointer_size' prevID prevOffset s0).
Proof.
  intros Hbit. split.
  - intros pointer_size. apply read_offset_unscaled. exact Hbit.
  - intros pointer_size pointer_size' prevID s0 Hlen Hhi.
    rewrite !read_mapping_tag by exact Hlen. rewrite <- Hhi.
    unfold bind. destruct (read_id _ prevID (advance 1 s0)) as [[id | e |] s1];
      try reflexivity.
    rewrite !read_offset_unscaled by exact Hbit. reflexivity.
Qed.

Lemma X10_witness :
  let s0 := mk_span_istream (sample_header 0 1 ++ map byte_of_Z [17]) 35 in
  Z.land (Z.shiftr (byte_at s0) 4) 8 = 0
  /\ read_mapping 0 7 64 s0 = read_mapping 8 7 64 s0.
Proof.
  intros s0.
  assert (Z.land (Z.shiftr (byte_at s0) 4) 8 = 0) as Hbit
      by (vm_compute; reflexivity).
  split; [exact Hbit |].
  destruct (X10_unscaled_ignores_pointer_size
              (Z.shiftr (byte_at s0) 4) 64 (advance 1 s0) Hbit) as [_ Hrec].
  apply Hrec; [vm_compute; lia | reflexivity].
Defined.

(** ** Scaled deltas *)

Lemma u64_mul_idemp (x p : Z) : u64 (u64 x * p) = u64 (x * p).
Proof. unfold u64. apply Z.mul_mod_idemp_l. lia. Qed.

Lemma spec_decode_relative unhandled m base s v s' :
  relative m ->
  spec_decode unhandled m base s = (Ok v, s') ->
  v = u64 (base + delta m (from_le (firstn (spec_width m) (remaining s)))).
Proof.
  unfold spec_decode, delta.
  destruct m as [w | | w | w |]; cbn [relative spec_width spec_value];
    try contradiction; intros _.
  - intros H. inversion H. f_equal; lia.
  - destruct (_ <=? _)%nat; intros H; inversion H. f_equal; lia.
  - destruct (_ <=? _)%nat; intros H; inversion H. f_equal; lia.
Qed.

(** X11. With bit 3 set and a positive pointer size, the modes that move
    away from the previous offset (sub-modes 1 to 5) first round the
    previous offset down to a multiple of the pointer size and then move by
    the delta times the pointer size, modulo 2^64; from an offset that is
    such a multiple, a scaled delta [d] thus moves by [d * pointer_size]. *)
Theorem X11_scaled_delta (hi pointer_size prevOffset : Z)
        (s : span_istream) (v : Z) (s' : span_istream) :
  Z.land hi 8 <> 0 ->
  0 < pointer_size < 2 ^ 31 ->
  relative (spec_mode (Z.land hi 7)) ->
  read_offset hi pointer_size prevOffset s = (Ok v, s') ->
  let m := spec_mode (Z.land hi 7) in
  let d := delta m (from_le (firstn (spec_width m) (remaining s))) in
  v = u64 (prevOffset - prevOffset mod pointer_size + d * pointer_size)
  /\ (prevOffset mod pointer_size = 0 ->
      v = u64 (prevOffset + d * pointer_size)).
Proof.
  intros Hbit Hps Hrel H m d.
  assert (int32_to_u64 pointer_size = pointer_size) as Hconv
      by (unfold int32_to_u64; apply Z.mod_small; lia).
  rewrite read_offset_scaled in H by (rewrite ?Hconv; lia || exact Hbit).
  rewrite Hconv in H.
  destruct (spec_decode _ _ _ s) as [[v1 | e1 |] s1] eqn:Hd;
    inversion H; subst.
  apply (spec_decode_relative _ _ _ _ _ _ Hrel) in Hd. fold m d in Hd.
  rewrite Hd, u64_mul_idemp.
  pose proof (Z.div_mod prevOffset pointer_size ltac:(lia)) as Hdm.
  assert (u64 ((prevOffset / pointer_size + d) * pointer_size)
          = u64 (prevOffset - prevOffset mod pointer_size + d * pointer_size))
    as Heq by (f_equal; lia).
  split; [exact Heq |].
  intros Haligned. rewrite Heq, Haligned. f_equal. lia.
Qed.

Lemma X11_witness :
  let s := open_file (map byte_of_Z [3]) in
  read_offset 10 8 4100 s = (Ok 4120, advance 1 s)
  /\ 4120 = u64 (4100 - 4100 mod 8 + 3 * 8).
Proof.
  intros s.
  assert (read_offset 10 8 4100 s = (Ok 4120, advance 1 s)) as H
      by (vm_compute; reflexivity).
  split; [exact H |].
  destruct (X11_scaled_delta 10 8 4100 s 4120 (advance 1 s)) as [Hv _].
  - cbn. discriminate.
  - lia.
  - exact I.
  - exact H.
  - exact Hv.
Defined.

Lemma read_mappings_app (n k : nat) (pointer_size : Z) :
  forall (prevID prevOffset : Z) (s : span_istream),
    read_mappings (n + k) pointer_size prevID prevOffset s
    = match read_mappings n pointer_size prevID prevOffset s with
      | (Ok ms, s1) =>
          match read_mappings k pointer_size
                  (fst (carried ms prevID prevOffset))
                  (snd (carried ms prevID prevOffset)) s1 with
          | (Ok ms', s2) => (Ok (ms ++ ms'), s2)
          | (Raise e, s2) => (Raise e, s2)
          | (Undefined, s2) => (Undefined, s2)
          end
      | (Raise e, s1) => (Raise e, s1)
      | (Undefined, s1) => (Undefined, s1)
      end.
Proof.
  induction n as [| n IH]; intros prevID prevOffset s.
  - cbn [Nat.add read_mappings ret carried last fst snd app].
    destruct (read_mappings k pointer_size prevID prevOffset s)
      as [[ms' | e |] s2]; reflexivity.
  - cbn [Nat.add read_mappings]. unfold bind at 1 3.
    destruct (read_mapping pointer_size prevID prevOffset s)
      as [[m | e |] s1]; try reflexivity.
    unfold bind. rewrite IH.
    destruct (read_mappings n pointer_size (fst m) (snd m) s1)
      as [[ms | e |] s2]; try reflexivity.
    unfold ret, carried. rewrite last_cons_default.
    rewrite <- (surjective_pairing m).
    destruct (read_mappings k pointer_size _ _ s2) as [[ms' | e |] s3];
      reflexivity.
Qed.

(** X12. Decoding composes: [n + k] records are the first [n] records
    followed by [k] records decoded from where those stopped, with the last
    decoded pair (or the initial values, when [n = 0]) as previous id and
    offset; a failure of either part is the failure of the whole.  So the
    first [n] mappings of a longer decode are what decoding [n] records
    alone gives. *)
Theorem X12_decoding_composes (n k : nat) (pointer_size prevID prevOffset : Z)
        (s : span_istream) :
  read_mappings (n + k) pointer_size prevID prevOffset s
  = match read_mappings n pointer_size prevID prevOffset s with
    | (Ok ms, s1) =>
        match read_mappings k pointer_size
                (fst (carried ms prevID prevOffset))
                (snd (carried ms prevID prevOffset)) s1 with
        | (Ok ms', s2) => (Ok (ms ++ ms'), s2)
        | (Raise e, s2) => (Raise e, s2)
        | (Undefined, s2) => (Undefined, s2)
        end
    | (Raise e, s1) => (Raise e, s1)
    | (Undefined, s1) => (Undefined, s1)
    end
  /\ (forall ms s2,
         read_mappings (n + k) pointer_size prevID prevOffset s = (Ok ms, s2) ->
         exists s1,
           read_mappings n pointer_size prevID prevOffset s
           = (Ok (firstn n ms), s1)).
Proof.
  split; [apply read_mappings_app |].
  intros ms s2 H. rewrite read_mappings_app in H.
  destruct (read_mappings n pointer_size prevID prevOffset s)
    as [[ms1 | e |] s1] eqn:Hn; try discriminate H.
  destruct (read_mappings k pointer_size _ _ s1) as [[ms' | e |] s3];
    inversion H; subst.
  pose proof (read_mappings_length _ _ _ _ _ _ _ Hn) as Hlen.
  exists s1. rewrite <- Hlen at 1.
  rewrite firstn_app, firstn_all, Nat.sub_diag. cbn [firstn].
  rewrite app_nil_r. reflexivity.
Qed.

Lemma X12_witness :
  read_mappings (2 + 2) 8 0 0 (open_file sample_records)
  = (Ok ([(300, 4096); (301, 4097)] ++ [(296, 4104); (300, 305419896)]),
     mk_span_istream sample_records 20).
Proof.
  rewrite (proj1 (X12_decoding_composes 2 2 8 0 0 (open_file sample_records))).
  vm_compute. reflexivity.
Defined.

(** ** Sorted sequences with distinct ids *)

Lemma ascending_unique (l1 : list mapping) :
  forall l2,
    Permutation l1 l2 -> ascending l1 -> ascending l2 -> distinct_ids l1 ->
    l1 = l2.
Proof.
  unfold ascending, distinct_ids.
  induction l1 as [| a l1 IH]; intros l2 Hperm Hs1 Hs2 Hnd.
  - apply Permutation_nil in Hperm. congruence.
  - destruct l2 as [| b l2].
    { apply Permutation_sym, Permutation_nil in Hperm. discriminate Hperm. }
    inversion Hs1 as [| ? ? Hs1' Ha]; subst.
    inversion Hs2 as [| ? ? Hs2' Hb]; subst.
    cbn [map] in Hnd. inversion Hnd as [| ? ? Hnotin Hnd']; subst.
    rewrite Forall_forall in Ha, Hb.
    assert (In b (a :: l1)) as Hbin
        by (apply (Permutation_in b (Permutation_sym Hperm)); left; reflexivity).
    assert (In a (b :: l2)) as Hain
        by (apply (Permutation_in a Hperm); left; reflexivity).
    assert (a = b) as ->.
    { destruct Hbin as [Hab | Hbin]; [exact Hab |].
      destruct Hain as [Hba | Hain]; [symmetry; exact Hba |].
      pose proof (Ha b Hbin) as H1. pose proof (Hb a Hain) as H2.
      exfalso. apply Hnotin.
      replace (fst a) with (fst b) by lia.
      apply in_map. exact Hbin. }
    f_equal. apply IH; try assumption.
    apply (Permutation_cons_inv Hperm).
Qed.

(** X13. When no id is met twice, what is written does not depend on how
    [std::sort] treats equal elements nor on the order of the records in
    the file: any two sorts that meet the contract give the same sequence
    for any two arrangements of the same mappings, and [dump_mappings]
    writes the same lines with either sort. *)
Theorem X13_distinct_ids_fix_the_report (sorter1 sorter2 : StdSort)
        (heap : Allocator) (ms ms' : list mapping) :
  Permutation ms ms' ->
  distinct_ids ms ->
  @sort_mappings sorter1 ms = @sort_mappings sorter2 ms'
  /\ (forall s s2 a_out,
         read_file s = (Ok ms, s2) ->
         @dump_mappings sorter1 heap s a_out
         = @dump_mappings sorter2 heap s a_out).
Proof.
  intros Hperm Hnd.
  assert (forall l, Permutation ms l ->
                    @sort_mappings sorter1 ms = @sort_mappings sorter2 l) as Heq.
  { intros l Hl. apply ascending_unique.
    - apply perm_trans with ms;
        [apply Permutation_sym, sort_mappings_perm |].
      apply perm_trans with l; [exact Hl | apply sort_mappings_perm].
    - apply sort_mappings_ascending.
    - apply sort_mappings_ascending.
    - unfold distinct_ids in *.
      apply (Permutation_NoDup
               (Permutation_map fst (@sort_mappings_perm sorter1 ms))).
      exact Hnd. }
  split; [apply Heq; exact Hperm |].
  intros s s2 a_out Hf.
  rewrite (@dump_mappings_ok sorter1 heap _ _ _ a_out Hf).
  rewrite (@dump_mappings_ok sorter2 heap _ _ _ a_out Hf).
  rewrite (Heq ms (Permutation_refl ms)). reflexivity.
Qed.

Lemma X13_witness :
  @sort_mappings stable_sorter [(7, 1); (3, 2); (5, 3)]
  = @sort_mappings reversing_sorter [(5, 3); (7, 1); (3, 2)].
Proof.
  apply (X13_distinct_ids_fix_the_report stable_sorter reversing_sorter
                                         sample_heap).
  - apply perm_trans with [(7, 1); (5, 3); (3, 2)].
    + apply perm_skip. apply perm_swap.
    + apply perm_trans with [(5, 3); (7, 1); (3, 2)];
        [apply perm_swap | apply Permutation_refl].
  - unfold distinct_ids. cbn.
    repeat constructor; cbn; intuition discriminate.
Defined.

(** ** All or nothing *)

Lemma read_file_ok_header {heap : Allocator} (s : span_istream) ms s2 :
  read_file s = (Ok ms, s2) ->
  exists h s1,
    read_header s = (Ok h, s1) /\ address_count h = Z.of_nat (length ms).
Proof.
  intros H.
  assert (exists h s1, read_header s = (Ok h, s1)) as (h & s1 & Hh).
  { unfold read_file in H. apply bind_ok_inv in H.
    destruct H as (h & s1 & Hh & _). eauto. }
  exists h, s1. split; [exact Hh |].
  apply (read_file_loop _ _ _ _ _ Hh) in H; [| discriminate | discriminate].
  destruct H as [[[Hpos _] _] H].
  rewrite (read_mappings_length _ _ _ _ _ _ _ H). lia.
Qed.

Lemma append_nonempty (a b : string) (c : ascii) :
  (a ++ String c b)%string <> EmptyString.
Proof. destruct a; discriminate. Qed.

(** X14. A run on one argument that comes to its end leaves the output
    file in one of two states.  Either the file decoded: nothing is printed
    and the output has one line per record announced by the header.  Or an
    exception was thrown while decoding: its message is printed, standard
    output is not empty, and the output has no line at all -- never a part
    of the report. *)
Theorem X14_all_or_nothing (sorter : StdSort) (heap : Allocator)
        (env : environment) (lib : list byte) (p : process) :
  wmain env 2 lib = Some p ->
  (exists h s1 lines,
      read_header (open_file lib) = (Ok h, s1)
      /\ stdout p = EmptyString
      /\ out_file p = Some lines
      /\ Z.of_nat (length lines) = address_count h)
  \/ (exists e,
         fst (read_file (open_file lib)) = Raise e
         /\ stdout p = (what env e ++ String newline EmptyString)%string
         /\ stdout p <> EmptyString
         /\ out_file p = Some []).
Proof.
  unfold wmain, do_main, open_file. cbn [Z.eqb Pos.eqb].
  destruct (read_file (mk_span_istream lib 0)) as [[ms | e |] s2] eqn:Hf.
  - rewrite (dump_mappings_ok _ _ _ [] Hf). intros H. inversion H; subst.
    left. destruct (read_file_ok_header _ _ _ Hf) as (h & s1 & Hh & Hcount).
    exists h, s1. eexists.
    split; [exact Hh |]. split; [reflexivity |]. split; [reflexivity |].
    cbn [app]. rewrite length_map.
    rewrite <- (Permutation_length (sort_mappings_perm ms)). lia.
  - rewrite (dump_mappings_raise _ _ _ [] Hf). intros H. inversion H; subst.
    right. exists e. cbn [fst stdout out_file].
    repeat split. apply append_nonempty.
  - unfold dump_mappings. rewrite Hf. discriminate.
Qed.

Lemma X14_witness :
  exists e,
    fst (read_file (heap := sample_heap) (open_file truncated_file)) = Raise e
    /\ wmain (sorter := stable_sorter) (heap := sample_heap)
             sample_env 2 truncated_file
       = Some (mk_process (what sample_env e ++ String newline EmptyString)
                          (Some []) EXIT_FAILURE).
Proof.
  assert (wmain (sorter := stable_sorter) (heap := sample_heap)
                sample_env 2 truncated_file
          = Some (mk_process
                    (what sample_env OutOfBounds ++ String newline EmptyString)
                    (Some []) EXIT_FAILURE)) as Hrun
      by (vm_compute; reflexivity).
  destruct (X14_all_or_nothing stable_sorter sample_heap sample_env
                               truncated_file _ Hrun)
    as [(h & s1 & lines & _ & Hout & _) | (e & He & _)].
  - discriminate Hout.
  - exists e. split; [exact He |].
    vm_compute in He. inversion He; subst. exact Hrun.
Defined.

(** ** Reading a line back *)

Lemma digit_not_below_zero (base : Z) (c : ascii) :
  0 < base <= 36 -> is_digit base c -> 0 <= digit_val c.
Proof.
  intros Hbase (d & Hd & ->). rewrite digit_val_char by lia. lia.
Qed.

(** Blanks and the tab are no digits: they read as negative values. *)
Lemma all_chars_impl (P Q : ascii -> Prop) (s : string) :
  (forall c, P c -> Q c) -> all_chars P s -> all_chars Q s.
Proof.
  intros HPQ. induction s as [| c s IH]; cbn; [auto |].
  intros [Hc Hs]. split; [apply HPQ; exact Hc | apply IH; exact Hs].
Qed.

Lemma all_chars_replicate (P : ascii -> Prop) (k : nat) (c : ascii) :
  P c -> all_chars P (replicate k c).
Proof. intros Hc. induction k as [| k IH]; cbn; auto. Qed.

(** Two texts that agree up to and behind their first tab. *)
Lemma split_at_tab (a a' b b' : string) :
  all_chars (fun c => c <> tab) a -> all_chars (fun c => c <> tab) a' ->
  (a ++ String tab b = a' ++ String tab b')%string ->
  a = a' /\ b = b'.
Proof.
  revert a'. induction a as [| c a IH]; intros [| c' a'] Ha Ha' H; cbn in *.
  - inversion H. auto.
  - inversion H; subst. destruct Ha' as [Hc _]. contradiction.
  - inversion H; subst. destruct Ha as [Hc _]. contradiction.
  - inversion H; subst. destruct Ha as [_ Ha]. destruct Ha' as [_ Ha'].
    destruct (IH a' Ha Ha' ltac:(assumption)) as [-> ->]. auto.
Qed.

(** Leading blanks in front of texts that hold none. *)
Lemma strip_blanks (k k' : nat) (d d' : string) :
  d <> EmptyString -> d' <> EmptyString ->
  all_chars (fun c => c <> " "%char) d ->
  all_chars (fun c => c <> " "%char) d' ->
  (replicate k " " ++ d = replicate k' " " ++ d')%string ->
  d = d'.
Proof.
  revert k'. induction k as [| k IH]; intros [| k'] Hne Hne' Hd Hd' H;
    cbn [replicate append] in H.
  - exact H.
  - destruct d as [| c d]; [contradiction |]. inversion H; subst.
    destruct Hd as [Hc _]. contradiction.
  - destruct d' as [| c d']; [contradiction |]. inversion H; subst.
    destruct Hd' as [Hc _]. contradiction.
  - inversion H. eapply IH; eassumption.
Qed.

Lemma value_leading_zeros (base : Z) (k : nat) (d : string) :
  value base (replicate k "0" ++ d) = value base d.
Proof.
  unfold value. rewrite value_from_append.
  assert (value_from base 0 (replicate k "0") = 0) as ->; [| reflexivity].
  induction k as [| k IH]; cbn [replicate value_from]; [reflexivity |].
  change (digit_val "0") with 0. rewrite Z.mul_0_l, Z.add_0_l. exact IH.
Qed.

Lemma render_no_char (base n : Z) (c : ascii) :
  2 <= base <= 36 -> 0 <= n -> digit_val c < 0 ->
  all_chars (fun x => x <> c) (render base n).
Proof.
  intros Hbase Hn Hc.
  destruct (render_spec base n Hbase Hn) as (_ & Hall & _).
  apply (all_chars_impl (is_digit base)); [| exact Hall].
  intros x Hx ->. apply (digit_not_below_zero base) in Hx; lia.
Qed.

Lemma render_nonempty (base n : Z) :
  2 <= base <= 36 -> 0 <= n -> render base n <> EmptyString.
Proof.
  intros Hbase Hn.
  destruct (render_spec base n Hbase Hn) as (_ & _ & Hlen & _).
  destruct (render base n); [cbn in Hlen; lia | discriminate].
Qed.

(** X15. A line of the report tells its mapping: for the same column
    width, two lines are equal only if they were made from the same id and
    the same offset.  The id is what the decimal digits between the blanks
    and the tab read, the offset what the hexadecimal digits behind the tab
    read. *)
Theorem X15_lines_tell_mappings (width : nat) (id address id' address' : Z) :
  0 <= id -> 0 <= address -> 0 <= id' -> 0 <= address' ->
  format_line width id address = format_line width id' address' ->
  id = id' /\ address = address'.
Proof.
  intros Hid Haddr Hid' Haddr' H. unfold format_line in H.
  assert (digit_val tab < 0) as Htab by (vm_compute; reflexivity).
  assert (digit_val " " < 0) as Hblank by (vm_compute; reflexivity).
  assert (forall n, 0 <= n ->
                    all_chars (fun c => c <> tab) (pad_left " " width (to_string n)))
    as Hnotab.
  { intros n Hn. unfold pad_left. apply all_chars_append.
    - apply all_chars_replicate. discriminate.
    - apply render_no_char; [lia | exact Hn | exact Htab]. }
  destruct (split_at_tab _ _ _ _ (Hnotab id Hid) (Hnotab id' Hid') H)
    as [Hleft Hright].
  split.
  - unfold pad_left in Hleft.
    apply strip_blanks in Hleft;
      try (apply render_nonempty; lia);
      try (apply render_no_char; [lia | assumption | exact Hblank]).
    destruct (render_spec 10 id ltac:(lia) Hid) as [Hv _].
    destruct (render_spec 10 id' ltac:(lia) Hid') as [Hv' _].
    unfold to_string in Hleft. rewrite <- Hv, <- Hv', Hleft. reflexivity.
  - apply (f_equal (value 16)) in Hright. unfold pad_left in Hright.
    rewrite !value_leading_zeros in Hright.
    destruct (render_spec 16 address ltac:(lia) Haddr) as [Hv _].
    destruct (render_spec 16 address' ltac:(lia) Haddr') as [Hv' _].
    rewrite <- Hv, <- Hv'. exact Hright.
Qed.

Lemma X15_witness :
  (42 = 42 /\ 4096 = 4096)
  /\ format_line 4 42 4096 <> format_line 4 42 4097.
Proof.
  split.
  - apply (X15_lines_tell_mappings 4 42 4096 42 4096); try lia. reflexivity.
  - intros H.
    apply (X15_lines_tell_mappings 4 42 4096 42 4097) in H; try lia.
Defined.

(** ** The shape of the report *)

Lemma render_length_bound (base n bound : Z) (k : nat) :
  2 <= base <= 36 -> 0 <= n < bound -> bound <= base ^ Z.of_nat k ->
  (1 <= k)%nat ->
  (String.length (render base n) <= k)%nat.
Proof.
  intros Hbase Hn Hbound Hk.
  destruct (Z.eq_dec n 0) as [-> | Hnz].
  - unfold render. cbn [Z.log2 Z.to_nat digits_from].
    rewrite Z.div_0_l by lia. cbn. exact Hk.
  - destruct (render_spec base n Hbase ltac:(lia)) as (_ & _ & Hlen & _ & Hlb).
    specialize (Hlb ltac:(lia)).
    apply Nat.nlt_ge. intros Hlt.
    assert (base ^ Z.of_nat k
            <= base ^ (Z.of_nat (String.length (render base n)) - 1)) as Hle
        by (apply Z.pow_le_mono_r; lia).
    lia.
Qed.

Lemma id_width_covers (l : list mapping) (m : mapping) :
  ascending l -> Forall in_range l -> In m l ->
  (String.length (to_string (fst m)) <= id_width l)%nat.
Proof.
  intros Hasc Hrange Hm.
  assert (Forall (fun m : mapping => 0 <= fst m) l) as Hpos.
  { eapply Forall_impl; [| exact Hrange]. intros x [[H _] _]. exact H. }
  destruct l as [| x l']; [contradiction |].
  unfold id_width.
  rewrite (ascending_last_max (x :: l') (0, 0) Hasc Hpos ltac:(discriminate)).
  pose proof (max_id_upper (x :: l')) as Hup. rewrite Forall_forall in Hup.
  specialize (Hup m Hm). cbn beta in Hup.
  rewrite Forall_forall in Hpos. specialize (Hpos m Hm). cbn beta in Hpos.
  apply render_length_mono; lia.
Qed.

Lemma get_append_here (a b : string) (c : ascii) :
  String.get (String.length a) (a ++ String c b) = Some c.
Proof. induction a as [| x a IH]; cbn; [reflexivity | exact IH]. Qed.

(** X16. In the report of an ascending sequence of 64-bit mappings the id
    column is at most 20 characters wide, every line has its tab in the
    same column -- right behind the id column -- and is between 8 and 17
    characters longer than the id column is wide (the tab and 7 to 16
    hexadecimal digits). *)
Theorem X16_report_shape (l : list mapping) :
  ascending l ->
  Forall in_range l ->
  (id_width l <= 20)%nat
  /\ Forall (fun m =>
               let line := format_line (id_width l) (fst m) (snd m) in
               String.get (id_width l) line = Some tab
               /\ (id_width l + 8 <= String.length line <= id_width l + 17)%nat)
            l.
Proof.
  intros Hasc Hrange.
  assert (forall n, 0 <= n < 2 ^ 64 ->
                    (String.length (render 10 n) <= 20)%nat) as Hdec.
  { intros n Hn.
    apply (render_length_bound 10 n (2 ^ 64)); try lia;
      vm_compute; discriminate. }
  assert (forall n, 0 <= n < 2 ^ 64 ->
                    (String.length (render 16 n) <= 16)%nat) as Hhex.
  { intros n Hn.
    apply (render_length_bound 16 n (2 ^ 64)); try lia;
      vm_compute; discriminate. }
  split.
  - destruct l as [| x l']; [cbn; lia |].
    unfold id_width. apply Hdec.
    assert (In (last (x :: l') (0, 0)) (x :: l')) as Hin by apply last_in.
    rewrite Forall_forall in Hrange. destruct (Hrange _ Hin) as [H _]. exact H.
  - apply Forall_forall. intros m Hm.
    pose proof (id_width_covers l m Hasc Hrange Hm) as Hfit.
    rewrite Forall_forall in Hrange. destruct (Hrange m Hm) as [_ Hoff].
    specialize (Hhex _ Hoff).
    cbn zeta. unfold format_line.
    assert (String.length (pad_left " " (id_width l) (to_string (fst m)))
            = id_width l) as Hpad.
    { unfold pad_left. rewrite append_length, replicate_length. lia. }
    split.
    + rewrite <- Hpad at 1. apply get_append_here.
    + rewrite append_length, Hpad. cbn [String.length].
      unfold pad_left. rewrite append_length, replicate_length. lia.
Qed.

Lemma X16_witness :
  let l := [(5, 255); (42, 4096); (1000, 3735928559)] in
  (id_width l <= 20)%nat
  /\ String.get (id_width l) (format_line (id_width l) 42 4096) = Some tab.
Proof.
  intros l.
  assert (ascending l) as Hasc
      by (unfold ascending, l; repeat constructor; cbn; lia).
  assert (Forall in_range l) as Hrange
      by (unfold l, in_range; repeat constructor; cbn; lia).
  destruct (X16_report_shape l Hasc Hrange) as [Hwidth Hlines].
  split; [exact Hwidth |].
  rewrite Forall_forall in Hlines.
  destruct (Hlines (42, 4096)) as [Htab _]; [right; left; reflexivity |].
  exact Htab.
Defined.
